(** * The hover-tooltip action of the web front-end

    A shallow embedding of [hoverTooltip] (the Svelte action that shows a
    floating [HoverTooltip] component while the pointer is over an element)
    and the properties its lifecycle satisfies.

    The action is a closure: every call of [hoverTooltip] allocates four
    mutable variables, registers two event listeners that close over them
    and returns an object with [update] and [destroy].  The embedding keeps
    a heap of such closures, the listener list of the document, the store of
    component instances and the trace of the calls made to the component
    and to the geometry query.  Several closures, on the same element or on
    different ones, share the page.

    Coordinates are rationals; they stand for the double-precision numbers
    of the DOM, and equations between them are stated with [==].  The sums
    and quotients of the embedding are exact, those of the engine are
    rounded to binary64: the two agree where the exact result is a binary64
    number, and a statement about the value of the anchor says so with
    [anchor_exact].  The arithmetic of the anchor is also given on the
    binary64 numbers themselves, as [anchor_binary64]. *)

From Stdlib Require Import QArith Qminmax Lqa.
From Stdlib Require PrimFloat FloatOps SpecFloat.
Import (notations) PrimFloat.
From stdpp Require Import base option list gmap strings.

Close Scope Q_scope.

(** ** Data *)

Abbreviation ElementId := nat.
Abbreviation ClosureId := nat.
Abbreviation InstanceId := nat.

(** A reference to a Svelte component class ([typeof SvelteComponent]). *)
Inductive ComponentRef := component_class (name : string).

(** The values a property bag ([Record<string, unknown>]) holds here. *)
Inductive JsValue :=
| js_undefined
| js_bool (b : bool)
| js_number (q : Q)
| js_string (s : string).

Abbreviation PropBag := (gmap string JsValue).

(** [HoverTooltipOptions]: the three fields are optional. *)
Record HoverTooltipOptions := mkOptions {
  tooltipText : option string;
  tooltipBodyComponent : option ComponentRef;
  tooltipBodyProps : option PropBag
}.

(** A [DOMRect] as the platform defines it: origin and size are stored, the
    four edges are derived from them. *)
Record DOMRect := mkRect {
  rect_x : Q;
  rect_y : Q;
  width : Q;
  height : Q
}.

Definition left (r : DOMRect) : Q := Qmin (rect_x r) (rect_x r + width r).
Definition right (r : DOMRect) : Q := Qmax (rect_x r) (rect_x r + width r).
Definition top (r : DOMRect) : Q := Qmin (rect_y r) (rect_y r + height r).
Definition bottom (r : DOMRect) : Q := Qmax (rect_y r) (rect_y r + height r).

Definition zero_rect : DOMRect := mkRect 0 0 0 0.


(** A rectangle with all-zero left, top, width and height. *)
Definition degenerate (r : DOMRect) : Prop :=
  (left r == 0)%Q ∧ (top r == 0)%Q ∧ (width r == 0)%Q ∧ (height r == 0)%Q.



(** Where a component is mounted. *)
Inductive Node :=
| document_body
| element_node (e : ElementId).

(** The props of the [HoverTooltip] component. *)
Record HoverTooltipProps := mkProps {
  p_tooltipText : option string;
  p_tooltipBodyComponent : option ComponentRef;
  p_tooltipBodyProps : option PropBag;
  p_x : Q;
  p_y : Q
}.

(** One key of the object handed to [$set]. *)
Inductive PropUpdate :=
| set_tooltipText (t : option string)
| set_tooltipBodyComponent (c : option ComponentRef)
| set_tooltipBodyProps (b : option PropBag)
| set_x (q : Q)
| set_y (q : Q).

Definition apply_update (p : HoverTooltipProps) (u : PropUpdate) : HoverTooltipProps :=
  match u with
  | set_tooltipText t =>
      mkProps t (p_tooltipBodyComponent p) (p_tooltipBodyProps p) (p_x p) (p_y p)
  | set_tooltipBodyComponent c =>
      mkProps (p_tooltipText p) c (p_tooltipBodyProps p) (p_x p) (p_y p)
  | set_tooltipBodyProps b =>
      mkProps (p_tooltipText p) (p_tooltipBodyComponent p) b (p_x p) (p_y p)
  | set_x q =>
      mkProps (p_tooltipText p) (p_tooltipBodyComponent p) (p_tooltipBodyProps p) q (p_y p)
  | set_y q =>
      mkProps (p_tooltipText p) (p_tooltipBodyComponent p) (p_tooltipBodyProps p) (p_x p) q
  end.

(** A mounted (or already destroyed) component instance. *)
Record Instance := mkInstance {
  props : HoverTooltipProps;
  target : Node;
  destroyed : bool
}.

Definition patch_instance (us : list PropUpdate) (i : Instance) : Instance :=
  mkInstance (foldl apply_update (props i) us) (target i) (destroyed i).

Definition mark_destroyed (i : Instance) : Instance :=
  mkInstance (props i) (target i) true.

Inductive EventType := mouseover | mouseleave.

(** The two function objects a closure registers. *)
Inductive Callback :=
| cb_mouseOver (k : ClosureId)
| cb_mouseLeave (k : ClosureId).

Record Listener := mkListener {
  l_element : ElementId;
  l_type : EventType;
  l_callback : Callback
}.

Global Instance Q_eq_dec : EqDecision Q.
Proof. solve_decision. Defined.
Global Instance ComponentRef_eq_dec : EqDecision ComponentRef.
Proof. solve_decision. Defined.
Global Instance JsValue_eq_dec : EqDecision JsValue.
Proof. solve_decision. Defined.
Global Instance HoverTooltipOptions_eq_dec : EqDecision HoverTooltipOptions.
Proof. solve_decision. Defined.
Global Instance DOMRect_eq_dec : EqDecision DOMRect.
Proof. solve_decision. Defined.
Global Instance EventType_eq_dec : EqDecision EventType.
Proof. solve_decision. Defined.
Global Instance Callback_eq_dec : EqDecision Callback.
Proof. solve_decision. Defined.
Global Instance Listener_eq_dec : EqDecision Listener.
Proof. solve_decision. Defined.

(** The variables of one call of [hoverTooltip]: the [element] argument and
    the four [let]s. *)
Record Vars := mkVars {
  element : ElementId;
  tooltipComponent : option InstanceId;
  curTooltipText : option string;
  curTooltipBodyComponent : option ComponentRef;
  curTooltipBodyProps : option PropBag
}.

(** The calls a closure makes to the component and to the geometry query. *)
Inductive Call :=
| call_getBoundingClientRect (e : ElementId)
| call_new (c : InstanceId) (p : HoverTooltipProps) (t : Node)
| call_destroy (c : InstanceId)
| call_set (c : InstanceId) (us : list PropUpdate).

Record State := mkState {
  layout : gmap ElementId DOMRect;
  listeners : list Listener;
  instances : list Instance;
  closures : list Vars;
  calls : list (ClosureId * Call)
}.

Definition initial : State := mkState ∅ [] [] [] [].

Definition with_instances (l : list Instance) (s : State) : State :=
  mkState (layout s) (listeners s) l (closures s) (calls s).
Definition with_listeners (l : list Listener) (s : State) : State :=
  mkState (layout s) l (instances s) (closures s) (calls s).
Definition with_closures (l : list Vars) (s : State) : State :=
  mkState (layout s) (listeners s) (instances s) l (calls s).
Definition with_layout (m : gmap ElementId DOMRect) (s : State) : State :=
  mkState m (listeners s) (instances s) (closures s) (calls s).
Definition record (k : ClosureId) (c : Call) (s : State) : State :=
  mkState (layout s) (listeners s) (instances s) (closures s) (calls s ++ [(k, c)]).

(** ** The platform *)

(** Modelled from the spec: the target element query surface.  An element
    that is connected and rendered has a layout box; for one that is not
    (it was removed from the document) the query yields the all-zero
    rectangle rather than failing. *)
Definition getBoundingClientRect (k : ClosureId) (e : ElementId) (s : State)
  : DOMRect * State :=
  (default zero_rect (layout s !! e), record k (call_getBoundingClientRect e) s).

(** Modelled from the spec: the floating renderer ([HoverTooltip.svelte],
    a Svelte component).  Constructing it mounts a fresh instance with the
    given props under the given parent and returns its handle. *)
Definition new_HoverTooltip (k : ClosureId) (p : HoverTooltipProps) (t : Node)
  (s : State) : InstanceId * State :=
  let c := length (instances s) in
  (c, record k (call_new c p t) (with_instances (instances s ++ [mkInstance p t false]) s)).

(** Modelled from the spec: [$destroy] of the floating renderer. *)
Definition component_destroy (k : ClosureId) (c : InstanceId) (s : State) : State :=
  record k (call_destroy c) (with_instances (alter mark_destroyed c (instances s)) s).

(** Modelled from the spec: [$set] of the floating renderer patches the
    props named in its argument and leaves the others. *)
Definition component_set (k : ClosureId) (c : InstanceId) (us : list PropUpdate)
  (s : State) : State :=
  record k (call_set c us) (with_instances (alter (patch_instance us) c (instances s)) s).

(** [addEventListener] does not register the same callback twice. *)
Definition addEventListener (e : ElementId) (ty : EventType) (cb : Callback)
  (s : State) : State :=
  let l := mkListener e ty cb in
  if decide (l ∈ listeners s) then s else with_listeners (listeners s ++ [l]) s.

(** [removeEventListener] of a callback that is not registered does nothing. *)
Definition removeEventListener (e : ElementId) (ty : EventType) (cb : Callback)
  (s : State) : State :=
  with_listeners (filter (λ l, l ≠ mkListener e ty cb) (listeners s)) s.

(** ** The closure *)

(** The functions below are the inner functions of [hoverTooltip] and the
    methods of the object it returns.  Each takes the identifier [k] of the
    closure whose variables it reads and writes; an identifier that no call
    of [hoverTooltip] returned denotes no function, and calling it does
    nothing. *)

Definition with_tooltipComponent (c : option InstanceId) (v : Vars) : Vars :=
  mkVars (element v) c (curTooltipText v) (curTooltipBodyComponent v)
    (curTooltipBodyProps v).

Definition with_content (o : HoverTooltipOptions) (v : Vars) : Vars :=
  mkVars (element v) (tooltipComponent v) (tooltipText o) (tooltipBodyComponent o)
    (tooltipBodyProps o).

Definition set_vars (k : ClosureId) (v : Vars) (s : State) : State :=
  with_closures (<[k := v]> (closures s)) s.

(** [function mouseOver()]: nothing if [tooltipComponent != null];
    otherwise the bounding rectangle is read and a [HoverTooltip] is
    constructed under [document.body]. *)
Definition mouseOver (k : ClosureId) (s : State) : State :=
  match closures s !! k with
  | None => s
  | Some v =>
      match tooltipComponent v with
      | Some _ => s
      | None =>
          let '(boundingRect, s1) := getBoundingClientRect k (element v) s in
          let '(c, s2) :=
            new_HoverTooltip k
              (mkProps (curTooltipText v) (curTooltipBodyComponent v)
                 (curTooltipBodyProps v)
                 (left boundingRect + width boundingRect / 2)%Q
                 (bottom boundingRect))
              document_body s1 in
          set_vars k (with_tooltipComponent (Some c) v) s2
      end
  end.

(** The props object [mouseOver] builds, under a name. *)
Definition mount_props (v : Vars) (boundingRect : DOMRect) : HoverTooltipProps :=
  mkProps (curTooltipText v) (curTooltipBodyComponent v) (curTooltipBodyProps v)
    (left boundingRect + width boundingRect / 2)%Q (bottom boundingRect).

(** The arithmetic of [mouseOver] as the engine performs it, on binary64
    numbers with rounding to nearest, ties to even:
    [boundingRect.left + boundingRect.width / 2] and [boundingRect.bottom]. *)
Definition anchor_binary64 (l w b : PrimFloat.float) : PrimFloat.float * PrimFloat.float :=
  (PrimFloat.add l (PrimFloat.div w 2%float), b).

(** The rational a finite binary64 number stands for. *)
Definition value (f : PrimFloat.float) : option Q :=
  match FloatOps.Prim2SF f with
  | SpecFloat.S754_zero _ => Some 0%Q
  | SpecFloat.S754_finite sign m e =>
      Some ((if sign then -1 else 1) * inject_Z (Z.pos m) * 2 ^ e)%Q
  | SpecFloat.S754_infinity _ | SpecFloat.S754_nan => None
  end.

(** [function mouseLeave()]: [tooltipComponent?.$destroy()], then
    [tooltipComponent = undefined]. *)
Definition mouseLeave (k : ClosureId) (s : State) : State :=
  match closures s !! k with
  | None => s
  | Some v =>
      let s1 :=
        match tooltipComponent v with
        | Some c => component_destroy k c s
        | None => s
        end in
      set_vars k (with_tooltipComponent None v) s1
  end.

(** [hoverTooltip(element, options)]: the variables are initialised, the
    two listeners are registered, and the object with [update] and
    [destroy] is returned, here as the identifier of the closure. *)
Definition hoverTooltip (e : ElementId) (o : HoverTooltipOptions) (s : State)
  : ClosureId * State :=
  let k := length (closures s) in
  let s1 :=
    with_closures
      (closures s ++
         [mkVars e None (tooltipText o) (tooltipBodyComponent o) (tooltipBodyProps o)])
      s in
  let s2 := addEventListener e mouseover (cb_mouseOver k) s1 in
  let s3 := addEventListener e mouseleave (cb_mouseLeave k) s2 in
  (k, s3).

(** [update(options)]: the three content variables are assigned, then
    [tooltipComponent?.$set({tooltipText})]. *)
Definition update (k : ClosureId) (o : HoverTooltipOptions) (s : State) : State :=
  match closures s !! k with
  | None => s
  | Some v =>
      let s1 := set_vars k (with_content o v) s in
      match tooltipComponent v with
      | Some c => component_set k c [set_tooltipText (tooltipText o)] s1
      | None => s1
      end
  end.

(** [destroy()]: [mouseLeave()], then both listeners are removed. *)
Definition destroy (k : ClosureId) (s : State) : State :=
  match closures s !! k with
  | None => s
  | Some v =>
      let s1 := mouseLeave k s in
      let s2 := removeEventListener (element v) mouseover (cb_mouseOver k) s1 in
      removeEventListener (element v) mouseleave (cb_mouseLeave k) s2
  end.

(** ** The event loop *)

(** Dispatching an event on an element calls the callbacks registered on
    it for that event type, one after the other.  No callback of this
    program registers or removes a listener, so the list is the one read
    before the first call. *)
Definition invoke (s : State) (cb : Callback) : State :=
  match cb with
  | cb_mouseOver k => mouseOver k s
  | cb_mouseLeave k => mouseLeave k s
  end.

(** The callbacks registered on [e] for [ty], in registration order. *)
Definition handlers (e : ElementId) (ty : EventType) (s : State) : list Callback :=
  omap (λ l, if decide (l_element l = e ∧ l_type l = ty)
             then Some (l_callback l) else None)
    (listeners s).

Definition dispatchEvent (e : ElementId) (ty : EventType) (s : State) : State :=
  foldl invoke s (handlers e ty s).

(** What can happen to the page: the application uses the action, the
    browser fires events and lays elements out. *)
Inductive Action :=
| Attach (e : ElementId) (o : HoverTooltipOptions)
| Update (k : ClosureId) (o : HoverTooltipOptions)
| Detach (k : ClosureId)
| Fire (e : ElementId) (ty : EventType)
| Reflow (e : ElementId) (r : DOMRect)
| Disconnect (e : ElementId).

Global Instance Action_eq_dec : EqDecision Action.
Proof. solve_decision. Defined.

Definition step (s : State) (a : Action) : State :=
  match a with
  | Attach e o => (hoverTooltip e o s).2
  | Update k o => update k o s
  | Detach k => destroy k s
  | Fire e ty => dispatchEvent e ty s
  | Reflow e r => with_layout (<[e := r]> (layout s)) s
  | Disconnect e => with_layout (delete e (layout s)) s
  end.

Definition run (s : State) (tr : list Action) : State := foldl step s tr.

(** ** What is observed of one closure *)

(** The calls made by closure [k], oldest first. *)
Definition calls_of (k : ClosureId) (cs : list (ClosureId * Call)) : list Call :=
  omap (λ kc, if decide (kc.1 = k) then Some kc.2 else None) cs.

Definition calls_by (k : ClosureId) (s : State) : list Call := calls_of k (calls s).

Definition new_id (c : Call) : option InstanceId :=
  match c with call_new i _ _ => Some i | _ => None end.

Definition destroy_id (c : Call) : option InstanceId :=
  match c with call_destroy i => Some i | _ => None end.

Definition mount_of (c : Call) : option (HoverTooltipProps * Node) :=
  match c with call_new _ p t => Some (p, t) | _ => None end.

(** The instances closure [k] created, and those it destroyed. *)
Definition news (k : ClosureId) (s : State) : list InstanceId :=
  omap new_id (calls_by k s).
Definition destroys (k : ClosureId) (s : State) : list InstanceId :=
  omap destroy_id (calls_by k s).

(** The arguments of the constructor calls of closure [k]. *)
Definition mounts (k : ClosureId) (s : State) : list (HoverTooltipProps * Node) :=
  omap mount_of (calls_by k s).

(** The creations and destructions of closure [k], in the order they
    happened. *)
Inductive Life :=
| created (c : InstanceId)
| torn_down (c : InstanceId).

Definition life_of (c : Call) : option Life :=
  match c with
  | call_new i _ _ => Some (created i)
  | call_destroy i => Some (torn_down i)
  | _ => None
  end.

Definition lifecycle (k : ClosureId) (s : State) : list Life :=
  omap life_of (calls_by k s).

Definition live_in (l : list Instance) (i : InstanceId) : bool :=
  match l !! i with
  | Some inst => negb (destroyed inst)
  | None => false
  end.

(** The instances created by closure [k] that are still mounted. *)
Definition live_instances (k : ClosureId) (s : State) : list InstanceId :=
  filter (λ i, live_in (instances s) i) (news k s).

(** The current value of [tooltipComponent] in closure [k]. *)
Definition handle (k : ClosureId) (s : State) : option InstanceId :=
  closures s !! k ≫= tooltipComponent.

Definition over_listener (k : ClosureId) (v : Vars) : Listener :=
  mkListener (element v) mouseover (cb_mouseOver k).
Definition leave_listener (k : ClosureId) (v : Vars) : Listener :=
  mkListener (element v) mouseleave (cb_mouseLeave k).

(** The closure a callback belongs to. *)
Definition owner (cb : Callback) : ClosureId :=
  match cb with cb_mouseOver k | cb_mouseLeave k => k end.

(** ** The lifecycle as the specification words it *)

(** The state machine of the controller: [Hidden] initially, [Visible]
    between an enter and the matching leave, [Unbound] once detached. *)
Inductive Phase := Hidden | Visible | Unbound.

Global Instance Phase_eq_dec : EqDecision Phase.
Proof. solve_decision. Defined.

Definition phase_step (k : ClosureId) (e : ElementId) (p : Phase) (a : Action) : Phase :=
  match a with
  | Fire e' ty =>
      if decide (e' = e) then
        match p, ty with
        | Unbound, _ => Unbound
        | _, mouseover => Visible
        | _, mouseleave => Hidden
        end
      else p
  | Detach k' => if decide (k' = k) then Unbound else p
  | _ => p
  end.

Definition phase_from (k : ClosureId) (e : ElementId) (p : Phase) (tr : list Action) : Phase :=
  foldl (phase_step k e) p tr.

(** The events a controller on element [e] processes: enter and leave
    events on [e] up to its detach; later events find no listener. *)
Inductive HoverEvent := enter | leave | detach.

Global Instance HoverEvent_eq_dec : EqDecision HoverEvent.
Proof. solve_decision. Defined.

Fixpoint processed (k : ClosureId) (e : ElementId) (tr : list Action) : list HoverEvent :=
  match tr with
  | [] => []
  | Fire e' ty :: tr' =>
      if decide (e' = e)
      then match ty with mouseover => enter | mouseleave => leave end :: processed k e tr'
      else processed k e tr'
  | Detach k' :: tr' =>
      if decide (k' = k) then [detach] else processed k e tr'
  | _ :: tr' => processed k e tr'
  end.

(** The controller is in the hovering interval: the last event it
    processed is an enter. *)
Definition hovering (k : ClosureId) (e : ElementId) (tr : list Action) : Prop :=
  last (processed k e tr) = Some enter.

(** The content a controller holds: that of the last [update], or that
    given at attach time when there was none. *)
Definition content_step (k : ClosureId) (o : HoverTooltipOptions) (a : Action)
  : HoverTooltipOptions :=
  match a with
  | Update k' o' => if decide (k' = k) then o' else o
  | _ => o
  end.

Definition content (k : ClosureId) (o : HoverTooltipOptions) (tr : list Action)
  : HoverTooltipOptions :=
  foldl (content_step k) o tr.

(** [n] enter/leave pairs on element [e]. *)
Fixpoint hover_pairs (e : ElementId) (n : nat) : list Action :=
  match n with
  | O => []
  | S n' => Fire e mouseover :: Fire e mouseleave :: hover_pairs e n'
  end.

(** The listeners of closure [k] that are registered. *)
Definition registered (k : ClosureId) (s : State) : list Listener :=
  filter (λ l, owner (l_callback l) = k) (listeners s).

(** Closure [k], on element [e], is in phase [p]: in [Hidden] and [Visible]
    both its listeners are registered, in [Unbound] none is; the handle is
    set in [Visible] only. *)
Definition in_phase (k : ClosureId) (e : ElementId) (p : Phase) (s : State) : Prop :=
  ∃ v, closures s !! k = Some v ∧ element v = e ∧
    match p with
    | Hidden =>
        tooltipComponent v = None ∧
        over_listener k v ∈ registered k s ∧ leave_listener k v ∈ registered k s
    | Visible =>
        is_Some (tooltipComponent v) ∧
        over_listener k v ∈ registered k s ∧ leave_listener k v ∈ registered k s
    | Unbound => tooltipComponent v = None ∧ registered k s = []
    end.

(** An action concerns the closure [k] on element [e] when it is one of
    its own calls or an event on its element. *)
Definition concerns (k : ClosureId) (e : ElementId) (a : Action) : Prop :=
  match a with
  | Update k' _ | Detach k' => k' = k
  | Fire e' _ => e' = e
  | _ => False
  end.

Global Instance concerns_dec k e a : Decision (concerns k e a).
Proof. destruct a; simpl; apply _. Defined.

(** An action in which no listener runs and which is not a call on the
    controller [k]: attaching a controller, updating or detaching another
    one, or a change of layout. *)
Definition elsewhere (k : ClosureId) (a : Action) : Prop :=
  match a with
  | Attach _ _ | Reflow _ _ | Disconnect _ => True
  | Update k' _ | Detach k' => k' ≠ k
  | Fire _ _ => False
  end.

(** Nothing of closure [k] differs between [s] and [s']. *)
Definition untouched (k : ClosureId) (s s' : State) : Prop :=
  closures s' !! k = closures s !! k ∧
  calls_by k s' = calls_by k s ∧
  registered k s' = registered k s.

(** What one action does to the variables of closure [k], which is in
    phase [p], and the calls the closure makes meanwhile; [n] is the handle
    the constructor returns and [r] the rectangle the geometry query
    yields, should they be called. *)
Definition next_vars (k : ClosureId) (p : Phase) (v : Vars) (n : InstanceId)
  (a : Action) : Vars :=
  match a with
  | Update k' o => if decide (k' = k) then with_content o v else v
  | Detach k' => if decide (k' = k) then with_tooltipComponent None v else v
  | Fire e' mouseover =>
      if decide (e' = element v ∧ p = Hidden)
      then with_tooltipComponent (Some n) v else v
  | Fire e' mouseleave =>
      if decide (e' = element v) then with_tooltipComponent None v else v
  | _ => v
  end.

Definition teardown (v : Vars) : list Call :=
  match tooltipComponent v with
  | Some c => [call_destroy c]
  | None => []
  end.

Definition next_calls (k : ClosureId) (p : Phase) (v : Vars) (r : DOMRect)
  (n : InstanceId) (a : Action) : list Call :=
  match a with
  | Update k' o =>
      if decide (k' = k) then
        match tooltipComponent v with
        | Some c => [call_set c [set_tooltipText (tooltipText o)]]
        | None => []
        end
      else []
  | Detach k' => if decide (k' = k) then teardown v else []
  | Fire e' mouseover =>
      if decide (e' = element v ∧ p = Hidden)
      then [call_getBoundingClientRect (element v);
            call_new n (mount_props v r) document_body]
      else []
  | Fire e' mouseleave => if decide (e' = element v) then teardown v else []
  | _ => []
  end.

(** The closure holds the content [o]. *)
Definition holds (o : HoverTooltipOptions) (v : Vars) : Prop :=
  curTooltipText v = tooltipText o ∧
  curTooltipBodyComponent v = tooltipBodyComponent o ∧
  curTooltipBodyProps v = tooltipBodyProps o.

(** What no callback changes, and what it can only grow. *)
Record steady (s s' : State) : Prop := mkSteady {
  steady_listeners : listeners s' = listeners s;
  steady_layout : layout s' = layout s;
  steady_closures : length (closures s') = length (closures s);
  steady_instances : length (instances s) ≤ length (instances s')
}.

(** A callback that finds nothing to do: [mouseOver] while the handle is
    set, [mouseLeave] while it is not, and any callback of another closure. *)
Definition inert (k : ClosureId) (v : Vars) (cb : Callback) : Prop :=
  match cb with
  | cb_mouseOver k' => k' = k → is_Some (tooltipComponent v)
  | cb_mouseLeave k' => k' = k → tooltipComponent v = None
  end.

(** The calls of a closure during enter/leave pairs that mount the
    instances [cs], and the creations and destructions among them. *)
Fixpoint pair_calls (v : Vars) (r : DOMRect) (cs : list InstanceId) : list Call :=
  match cs with
  | [] => []
  | c :: cs' =>
      call_getBoundingClientRect (element v)
        :: call_new c (mount_props v r) document_body
        :: call_destroy c
        :: pair_calls v r cs'
  end.

Fixpoint life_pairs (cs : list InstanceId) : list Life :=
  match cs with
  | [] => []
  | c :: cs' => created c :: torn_down c :: life_pairs cs'
  end.

(** ** Example data *)

Definition R1 : ComponentRef := component_class "R1".
Definition R2 : ComponentRef := component_class "R2".

(** Content with the label A, the body renderer [R1] and the props
    [{x: 1}]; the same with the body renderer [R2]; a plain label B. *)
Definition content_R1 : HoverTooltipOptions :=
  mkOptions (Some "A"%string) (Some R1) (Some {[ "x"%string := js_number 1 ]}).
Definition content_R2 : HoverTooltipOptions :=
  mkOptions (Some "A"%string) (Some R2) (Some {[ "x"%string := js_number 1 ]}).
Definition label_B_R2 : HoverTooltipOptions :=
  mkOptions (Some "B"%string) (Some R2) None.
Definition label_A : HoverTooltipOptions := mkOptions (Some "A"%string) None None.
Definition label_B : HoverTooltipOptions := mkOptions (Some "B"%string) None None.

(** The target of the geometry scenario. *)
Definition target_rect : DOMRect := mkRect 100 50 40 20.

(** Every instance in the store, and every constructor call in the trace,
    has [document.body] as the mount parent. *)
Definition under_body (s : State) : Prop :=
  Forall (λ i, target i = document_body) (instances s) ∧
  Forall (λ kc, match kc.2 with
                | call_new _ _ t => t = document_body
                | _ => True
                end) (calls s).

(** ** Consistency of the page *)

(** Every registered listener is one of the two of some closure. *)
Definition wf_listeners (cl : list Vars) (ls : list Listener) : Prop :=
  ∀ l, l ∈ ls →
    ∃ k v, cl !! k = Some v ∧ (l = over_listener k v ∨ l = leave_listener k v).

Record consistent (s : State) : Prop := mkConsistent {
  calls_closed : ∀ k, length (closures s) ≤ k → calls_by k s = [];
  news_fresh : ∀ k i, i ∈ news k s → i < length (instances s);
  news_owner : ∀ k k' i, i ∈ news k s → i ∈ news k' s → k = k';
  live_handle : ∀ k v, closures s !! k = Some v →
    live_instances k s = option_list (tooltipComponent v);
  listeners_wf : wf_listeners (closures s) (listeners s)
}.

(** ** The protocol of the component *)

(** The calls of one closure, read as sessions: a geometry query on the
    element of the closure, the construction of an instance under
    [document.body], any number of label patches of that instance, its
    destruction; then the next session. *)
Inductive Session :=
| idle
| queried
| mounted (c : InstanceId).

Definition label_only (us : list PropUpdate) : bool :=
  match us with
  | [set_tooltipText _] => true
  | _ => false
  end.

Definition session_step (e : ElementId) (st : option Session) (c : Call)
  : option Session :=
  match st, c with
  | Some idle, call_getBoundingClientRect e' =>
      if decide (e' = e) then Some queried else None
  | Some queried, call_new i _ document_body => Some (mounted i)
  | Some (mounted i), call_set j us =>
      if decide (j = i) then (if label_only us then Some (mounted i) else None)
      else None
  | Some (mounted i), call_destroy j =>
      if decide (j = i) then Some idle else None
  | _, _ => None
  end.

Definition sessions (e : ElementId) (cs : list Call) : option Session :=
  foldl (session_step e) (Some idle) cs.

Definition session_of (h : option InstanceId) : Session :=
  match h with
  | Some c => mounted c
  | None => idle
  end.

(** The calls of all closures, replayed against the set of mounted
    instances and their owners: an instance is constructed under an
    identifier that is not mounted, and it is patched and destroyed only
    while mounted and only by the closure that constructed it. *)
Definition replay_step (m : option (gmap InstanceId ClosureId))
  (kc : ClosureId * Call) : option (gmap InstanceId ClosureId) :=
  m ≫= λ m,
    match kc.2 with
    | call_getBoundingClientRect _ => Some m
    | call_new c _ _ =>
        if decide (m !! c = None) then Some (<[c := kc.1]> m) else None
    | call_destroy c =>
        if decide (m !! c = Some kc.1) then Some (delete c m) else None
    | call_set c _ =>
        if decide (m !! c = Some kc.1) then Some m else None
    end.

Definition replay (cs : list (ClosureId * Call)) : option (gmap InstanceId ClosureId) :=
  foldl replay_step (Some ∅) cs.

(** The replay of the calls of a state succeeds and ends with the mounted
    instances being the ones the handles name. *)
Definition replayed (s : State) : Prop :=
  ∃ m, replay (calls s) = Some m ∧ ∀ c k, m !! c = Some k ↔ handle k s = Some c.

(** The label a mounted instance shows is the label its controller
    holds. *)
Definition label_synced (s : State) : Prop :=
  ∀ k v c inst,
    closures s !! k = Some v → tooltipComponent v = Some c →
    instances s !! c = Some inst →
    p_tooltipText (props inst) = curTooltipText v.

(** The listeners a controller in phase [p] on element [e] has registered. *)
Definition listeners_in (k : ClosureId) (e : ElementId) (p : Phase) : list Listener :=
  match p with
  | Unbound => []
  | _ => [mkListener e mouseover (cb_mouseOver k);
          mkListener e mouseleave (cb_mouseLeave k)]
  end.

(** The instances constructed by any closure, oldest first. *)
Definition all_news (s : State) : list InstanceId :=
  omap (λ kc, new_id kc.2) (calls s).

(** What stays of an instance whatever happens to it: its body component,
    its body props, its anchor and its parent; and once destroyed it stays
    destroyed. *)
Definition keeps (i i' : Instance) : Prop :=
  p_tooltipBodyComponent (props i') = p_tooltipBodyComponent (props i) ∧
  p_tooltipBodyProps (props i') = p_tooltipBodyProps (props i) ∧
  p_x (props i') = p_x (props i) ∧
  p_y (props i') = p_y (props i) ∧
  target i' = target i ∧
  (destroyed i = true → destroyed i' = true).

Definition store_keeps (l l' : list Instance) : Prop :=
  ∀ c i, l !! c = Some i → ∃ i', l' !! c = Some i' ∧ keeps i i'.

(** ** The formatting map of the notebook *)

(** [format_code] of the notebook, the function given to [Dataset.map].
    A Python string is a list of characters.  The two things the function
    calls outside Python itself are parameters: [findall], the matches of
    the compiled pattern [code_block_re] in a text, each a pair of the two
    groups of the pattern, and [ruff], the run of the formatter on one
    code block. *)

Abbreviation str := (list Ascii.ascii).

(** [str.replace(old, new)]: every occurrence of [old] is replaced, from
    the left, occurrences not overlapping; an empty [old] matches before
    every character and at the end. *)
Fixpoint replace_from {A} `{EqDecision A} (old new : list A) (skip : nat)
  (s : list A) : list A :=
  match s with
  | [] => []
  | c :: s' =>
      match skip with
      | S n => replace_from old new n s'
      | O =>
          if decide (old `prefix_of` s)
          then new ++ replace_from old new (length old - 1) s'
          else c :: replace_from old new 0 s'
      end
  end.

Definition str_replace {A} `{EqDecision A} (old new s : list A) : list A :=
  match old with
  | [] => new ++ (s ≫= λ c, c :: new)
  | _ => replace_from old new 0 s
  end.

(** What [subprocess.check_output] does: it returns the output, raises
    [CalledProcessError] (the formatter exited with an error), or raises
    something else (the binary is missing, say). *)
Inductive CheckOutput :=
| returned (out : str)
| CalledProcessError
| OSError.

Inductive Exn :=
| KeyError (key : string)
| Uncaught.

Record FormatResult := mkFormatResult {
  answer : str;
  has_edit : bool
}.

(** The [for] loop of [format_code], with its two variables. *)
Fixpoint format_blocks (ruff : str → CheckOutput)
  (blocks : list (str * str)) (new_text : str)
  (edited : bool) : Exn + FormatResult :=
  match blocks with
  | [] => inr (mkFormatResult new_text edited)
  | (_, code_block) :: rest =>
      match code_block with
      | [] => format_blocks ruff rest new_text edited
      | _ =>
          match ruff code_block with
          | returned formatted_code_block =>
              format_blocks ruff rest
                (str_replace code_block formatted_code_block new_text) true
          | CalledProcessError => format_blocks ruff rest new_text edited
          | OSError => inl Uncaught
          end
      end
  end.

(** An item is a dictionary; the value under a key is a string or [None]. *)
Definition format_code (findall : str → list (str * str))
  (ruff : str → CheckOutput) (item : gmap string (option (str)))
  : Exn + option FormatResult :=
  match item !! "answer"%string with
  | None => inl (KeyError "answer")
  | Some None | Some (Some []) => inr None
  | Some (Some text) =>
      match format_blocks ruff (findall text) text false with
      | inl e => inl e
      | inr r => inr (Some r)
      end
  end.

(** A block the loop formats: it is not empty and the formatter returns. *)
Definition formats (ruff : str → CheckOutput)
  (b : str * str) : Prop :=
  b.2 ≠ [] ∧ ∃ out, ruff b.2 = returned out.

(** The three cases of a call on closure [k]: the handle is set, it is
    not, or there is no such closure. *)
Ltac closure_cases k s :=
  let v := fresh "v" in
  let c := fresh "c" in
  let Hk := fresh "Hk" in
  let Hv := fresh "Hv" in
  destruct (closures s !! k) as [v|] eqn:Hk;
    [destruct (tooltipComponent v) as [c|] eqn:Hv|].

(** * Properties *)

(** ** Lists, instance stores and call traces *)

Lemma filter_ext_in {A} (P1 P2 : A → Prop)
    `{!∀ x, Decision (P1 x), !∀ x, Decision (P2 x)} (l : list A) :
  (∀ x, x ∈ l → P1 x ↔ P2 x) → filter P1 l = filter P2 l.
Proof.
  induction l as [|a l IH]; intros Hext; [done|].
  rewrite !filter_cons.
  rewrite IH by (intros x Hx; apply Hext; by right).
  destruct (decide (P1 a)) as [Ha|Ha], (decide (P2 a)) as [Hb|Hb]; try done.
  - exfalso. apply Hb, Hext; [by left|done].
  - exfalso. apply Ha, Hext; [by left|done].
Qed.

Lemma filter_one {A} (P : A → Prop) `{!∀ x, Decision (P x)} (x : A) :
  filter P [x] = if decide (P x) then [x] else [].
Proof. done. Qed.

Lemma live_in_app l x i : i < length l → live_in (l ++ [x]) i = live_in l i.
Proof. intros Hi. unfold live_in. by rewrite lookup_app_l. Qed.

Lemma live_in_snoc l x : live_in (l ++ [x]) (length l) = negb (destroyed x).
Proof. unfold live_in. by rewrite list_lookup_middle. Qed.

Lemma live_in_lt l i : live_in l i = true → i < length l.
Proof.
  unfold live_in. destruct (l !! i) eqn:E; [|done].
  intros _. by eapply lookup_lt_Some.
Qed.

Lemma live_in_destroy l c i :
  live_in (alter mark_destroyed c l) i = live_in l i && bool_decide (i ≠ c).
Proof.
  unfold live_in. destruct (decide (i = c)) as [->|Hne].
  - rewrite list_lookup_alter_eq, bool_decide_false by naive_solver.
    destruct (l !! c) as [inst|]; simpl; by rewrite ?andb_false_r.
  - rewrite list_lookup_alter_ne, bool_decide_true by done.
    by rewrite andb_true_r.
Qed.

Lemma live_in_patch l us c i :
  live_in (alter (patch_instance us) c l) i = live_in l i.
Proof.
  unfold live_in. destruct (decide (i = c)) as [->|Hne].
  - rewrite list_lookup_alter_eq. by destruct (l !! c).
  - by rewrite list_lookup_alter_ne.
Qed.

Lemma calls_of_app k cs1 cs2 :
  calls_of k (cs1 ++ cs2) = calls_of k cs1 ++ calls_of k cs2.
Proof. apply omap_app. Qed.

Lemma calls_of_one k k0 c :
  calls_of k [(k0, c)] = if decide (k0 = k) then [c] else [].
Proof. unfold calls_of. simpl. by case_decide. Qed.

Lemma calls_of_snoc_same k cs c : calls_of k (cs ++ [(k, c)]) = calls_of k cs ++ [c].
Proof. by rewrite calls_of_app, calls_of_one, decide_True. Qed.

Lemma calls_of_snoc_other k k0 cs c :
  k0 ≠ k → calls_of k (cs ++ [(k0, c)]) = calls_of k cs.
Proof.
  intros. by rewrite calls_of_app, calls_of_one, decide_False, app_nil_r.
Qed.

(** ** The four functions of the closure, case by case *)

Lemma with_tooltipComponent_id v :
  with_tooltipComponent (tooltipComponent v) v = v.
Proof. by destruct v. Qed.

Lemma mouseOver_absent k s : closures s !! k = None → mouseOver k s = s.
Proof. intros H. unfold mouseOver. by rewrite H. Qed.

Lemma mouseOver_visible k s v c :
  closures s !! k = Some v → tooltipComponent v = Some c → mouseOver k s = s.
Proof. intros H1 H2. unfold mouseOver. by rewrite H1, H2. Qed.

Lemma mouseOver_hidden k s v :
  closures s !! k = Some v → tooltipComponent v = None →
  mouseOver k s =
    mkState (layout s) (listeners s)
      (instances s ++
         [mkInstance (mount_props v (default zero_rect (layout s !! element v)))
            document_body false])
      (<[k := with_tooltipComponent (Some (length (instances s))) v]> (closures s))
      (calls s ++
         [(k, call_getBoundingClientRect (element v));
          (k, call_new (length (instances s))
                (mount_props v (default zero_rect (layout s !! element v)))
                document_body)]).
Proof.
  intros H1 H2. unfold mouseOver. rewrite H1, H2. simpl.
  unfold set_vars, with_closures, record. simpl.
  by rewrite <- app_assoc.
Qed.

Lemma mouseLeave_absent k s : closures s !! k = None → mouseLeave k s = s.
Proof. intros H. unfold mouseLeave. by rewrite H. Qed.

Lemma mouseLeave_hidden k s v :
  closures s !! k = Some v → tooltipComponent v = None → mouseLeave k s = s.
Proof.
  intros H1 H2. unfold mouseLeave. rewrite H1, H2.
  unfold set_vars, with_closures. rewrite <- H2, with_tooltipComponent_id.
  rewrite list_insert_id by done. by destruct s.
Qed.

Lemma mouseLeave_visible k s v c :
  closures s !! k = Some v → tooltipComponent v = Some c →
  mouseLeave k s =
    mkState (layout s) (listeners s) (alter mark_destroyed c (instances s))
      (<[k := with_tooltipComponent None v]> (closures s))
      (calls s ++ [(k, call_destroy c)]).
Proof. intros H1 H2. unfold mouseLeave. by rewrite H1, H2. Qed.

Lemma update_absent k o s : closures s !! k = None → update k o s = s.
Proof. intros H. unfold update. by rewrite H. Qed.

Lemma update_hidden k o s v :
  closures s !! k = Some v → tooltipComponent v = None →
  update k o s =
    mkState (layout s) (listeners s) (instances s)
      (<[k := with_content o v]> (closures s)) (calls s).
Proof. intros H1 H2. unfold update. by rewrite H1, H2. Qed.

Lemma update_visible k o s v c :
  closures s !! k = Some v → tooltipComponent v = Some c →
  update k o s =
    mkState (layout s) (listeners s)
      (alter (patch_instance [set_tooltipText (tooltipText o)]) c (instances s))
      (<[k := with_content o v]> (closures s))
      (calls s ++ [(k, call_set c [set_tooltipText (tooltipText o)])]).
Proof. intros H1 H2. unfold update. by rewrite H1, H2. Qed.

(** ** How the observations change with the state *)

Lemma calls_by_record k k0 c s :
  calls_by k (record k0 c s) = calls_by k s ++ (if decide (k0 = k) then [c] else []).
Proof. unfold calls_by. simpl. by rewrite calls_of_app, calls_of_one. Qed.

Lemma calls_by_with_instances k l s : calls_by k (with_instances l s) = calls_by k s.
Proof. done. Qed.

Lemma calls_by_set_vars k k0 v s : calls_by k (set_vars k0 v s) = calls_by k s.
Proof. done. Qed.

Lemma news_record_new k k0 i p t s :
  news k (record k0 (call_new i p t) s) = news k s ++ (if decide (k0 = k) then [i] else []).
Proof.
  unfold news. rewrite calls_by_record, omap_app. f_equal. by case_decide.
Qed.

Lemma news_record_other k k0 c s :
  new_id c = None → news k (record k0 c s) = news k s.
Proof.
  intros Hc. unfold news. rewrite calls_by_record, omap_app.
  case_decide; simpl; by rewrite ?Hc, app_nil_r.
Qed.

Lemma news_with_instances k l s : news k (with_instances l s) = news k s.
Proof. done. Qed.

Lemma news_set_vars k k0 v s : news k (set_vars k0 v s) = news k s.
Proof. done. Qed.

Lemma live_instances_ext k s s' :
  news k s' = news k s →
  (∀ i, i ∈ news k s → live_in (instances s') i = live_in (instances s) i) →
  live_instances k s' = live_instances k s.
Proof.
  intros Hn Hl. unfold live_instances. rewrite Hn.
  apply filter_ext_in. intros i Hi. by rewrite Hl.
Qed.

Lemma live_instances_news k s i : i ∈ live_instances k s → i ∈ news k s.
Proof. unfold live_instances. rewrite list_elem_of_filter. tauto. Qed.

(** ** Consistency is preserved *)

Lemma wf_listeners_insert cl ls k0 v v' :
  cl !! k0 = Some v → element v' = element v →
  wf_listeners cl ls → wf_listeners (<[k0 := v']> cl) ls.
Proof.
  intros Hk He Hwf l Hl. destruct (Hwf l Hl) as (k & w & Hw & Hc).
  destruct (decide (k = k0)) as [->|Hne].
  - exists k0, v'. split.
    + apply list_lookup_insert_eq. by eapply lookup_lt_Some.
    + assert (w = v) by congruence. subst w.
      unfold over_listener, leave_listener in *. by rewrite He.
  - exists k, w. split; [|done]. by rewrite list_lookup_insert_ne.
Qed.

Lemma consistent_initial : consistent initial.
Proof.
  split; try done.
  - intros k i Hi. by apply elem_of_nil in Hi.
  - intros k k' i Hi. by apply elem_of_nil in Hi.
  - intros l Hl. by apply elem_of_nil in Hl.
Qed.

Lemma consistent_layout s m : consistent s → consistent (with_layout m s).
Proof. intros [H1 H2 H3 H4 H5]. by split. Qed.

Lemma consistent_listeners s ls :
  consistent s → wf_listeners (closures s) ls → consistent (with_listeners ls s).
Proof. intros [H1 H2 H3 H4 H5] Hls. by split. Qed.

Lemma consistent_alloc s v0 :
  consistent s → tooltipComponent v0 = None →
  consistent (with_closures (closures s ++ [v0]) s).
Proof.
  intros [H1 H2 H3 H4 H5] Hv0. split; simpl.
  - intros k Hk. rewrite length_app in Hk. apply H1. lia.
  - done.
  - done.
  - intros k v Hk. apply lookup_app_Some in Hk as [Hk|[Hlen Hk]].
    + by apply H4.
    + apply list_lookup_singleton_Some in Hk as [_ <-].
      rewrite Hv0. unfold live_instances, news. simpl.
      change (calls_by k (with_closures (closures s ++ [v0]) s)) with (calls_by k s).
      by rewrite (H1 k).
  - intros l Hl. destruct (H5 l Hl) as (k & w & Hw & Hc).
    exists k, w. split; [|done]. by apply lookup_app_l_Some.
Qed.

Lemma consistent_set_vars s k0 v v' :
  consistent s → closures s !! k0 = Some v →
  tooltipComponent v' = tooltipComponent v → element v' = element v →
  consistent (set_vars k0 v' s).
Proof.
  intros [H1 H2 H3 H4 H5] Hk Ht He. split; simpl.
  - intros k. rewrite length_insert. apply H1.
  - done.
  - done.
  - intros k w Hw. destruct (decide (k = k0)) as [->|Hne].
    + rewrite list_lookup_insert_eq in Hw by (by eapply lookup_lt_Some).
      assert (w = v') by congruence. subst w. rewrite Ht. by apply H4.
    + rewrite list_lookup_insert_ne in Hw by done. by apply H4.
  - by eapply wf_listeners_insert.
Qed.

Lemma consistent_patch s k0 c us :
  consistent s → k0 < length (closures s) →
  consistent (component_set k0 c us s).
Proof.
  intros [H1 H2 H3 H4 H5] Hk. unfold component_set. split.
  - intros k Hlen. rewrite calls_by_record, decide_False, app_nil_r by (simpl in *; lia).
    by apply H1.
  - intros k i. rewrite news_record_other by done. simpl.
    rewrite length_alter. apply H2.
  - intros k k' i. rewrite !news_record_other by done. apply H3.
  - intros k v Hv. rewrite <- (H4 k v Hv). apply live_instances_ext.
    + by rewrite news_record_other.
    + intros i _. simpl. by rewrite live_in_patch.
  - done.
Qed.

Lemma calls_by_extend k ly ls ins cl s l :
  calls_by k (mkState ly ls ins cl (calls s ++ l)) = calls_by k s ++ calls_of k l.
Proof. unfold calls_by. simpl. apply calls_of_app. Qed.

Lemma elem_of_if_singleton (k0 k i n : nat) :
  i ∈ (if decide (k0 = k) then [n] else []) ↔ k0 = k ∧ i = n.
Proof.
  case_decide.
  - rewrite list_elem_of_singleton. tauto.
  - rewrite elem_of_nil. tauto.
Qed.

Lemma calls_of_two k0 k a b :
  calls_of k [(k0, a); (k0, b)] = if decide (k0 = k) then [a; b] else [].
Proof. unfold calls_of. simpl. by case_decide. Qed.

(** The state [mouseOver] produces when it mounts. *)
Lemma consistent_mount s k0 v p t e :
  consistent s → closures s !! k0 = Some v → tooltipComponent v = None →
  consistent
    (mkState (layout s) (listeners s) (instances s ++ [mkInstance p t false])
       (<[k0 := with_tooltipComponent (Some (length (instances s))) v]> (closures s))
       (calls s ++ [(k0, call_getBoundingClientRect e);
                    (k0, call_new (length (instances s)) p t)])).
Proof.
  intros [H1 H2 H3 H4 H5] Hk Hv.
  pose proof (lookup_lt_Some _ _ _ Hk) as Hlt.
  set (n := length (instances s)).
  assert (Hnews : ∀ k ly ls ins cl,
    news k (mkState ly ls ins cl
      (calls s ++ [(k0, call_getBoundingClientRect e); (k0, call_new n p t)]))
    = news k s ++ (if decide (k0 = k) then [n] else [])).
  { intros. unfold news. rewrite calls_by_extend, omap_app. f_equal.
    rewrite calls_of_two.
    by case_decide. }
  split.
  - intros k Hlen. simpl in Hlen. rewrite length_insert in Hlen.
    rewrite calls_by_extend.
    rewrite calls_of_two.
    rewrite decide_False, app_nil_r by lia. by apply H1.
  - intros k i. rewrite Hnews. simpl. rewrite length_app. simpl.
    rewrite elem_of_app, elem_of_if_singleton.
    intros [Hi|[_ ->]]; [apply H2 in Hi|unfold n]; lia.
  - intros k k' i. rewrite !Hnews, !elem_of_app, !elem_of_if_singleton.
    intros [Hi|[Hi ->]] [Hi'|[Hi' Hn]].
    + by eapply H3.
    + apply H2 in Hi. unfold n in *. lia.
    + apply H2 in Hi'. unfold n in *. lia.
    + congruence.
  - intros k w Hw. simpl in Hw. unfold live_instances. rewrite Hnews. simpl.
    rewrite filter_app.
    assert (filter (λ i, live_in (instances s ++ [mkInstance p t false]) i) (news k s)
            = live_instances k s) as ->.
    { apply filter_ext_in. intros i Hi. rewrite live_in_app; [done|]. by eapply H2. }
    destruct (decide (k0 = k)) as [<-|Hne].
    + rewrite list_lookup_insert_eq in Hw by done.
      assert (w = with_tooltipComponent (Some n) v) by congruence. subst w.
      rewrite (H4 k0 v Hk), Hv. simpl.
      rewrite filter_one, decide_True; [done|].
      unfold n. by rewrite live_in_snoc.
    + rewrite list_lookup_insert_ne in Hw by done.
      rewrite filter_nil, app_nil_r. by apply H4.
  - simpl. by eapply wf_listeners_insert.
Qed.

(** The state [mouseLeave] produces when it unmounts. *)
Lemma consistent_unmount s k0 v c :
  consistent s → closures s !! k0 = Some v → tooltipComponent v = Some c →
  consistent
    (mkState (layout s) (listeners s) (alter mark_destroyed c (instances s))
       (<[k0 := with_tooltipComponent None v]> (closures s))
       (calls s ++ [(k0, call_destroy c)])).
Proof.
  intros [H1 H2 H3 H4 H5] Hk Hv.
  pose proof (lookup_lt_Some _ _ _ Hk) as Hlt.
  assert (Hnews : ∀ k ly ls ins cl,
    news k (mkState ly ls ins cl (calls s ++ [(k0, call_destroy c)])) = news k s).
  { intros. unfold news. rewrite calls_by_extend, omap_app.
    rewrite calls_of_one.
    case_decide; simpl; by rewrite app_nil_r. }
  assert (Hlive : ∀ k ly ls cl,
    live_instances k (mkState ly ls (alter mark_destroyed c (instances s)) cl
      (calls s ++ [(k0, call_destroy c)]))
    = filter (λ i, i ≠ c) (live_instances k s)).
  { intros. unfold live_instances. rewrite Hnews. simpl.
    rewrite list_filter_filter. apply list_filter_iff. intros i.
    rewrite live_in_destroy. rewrite andb_True, bool_decide_spec. tauto. }
  split.
  - intros k Hlen. simpl in Hlen. rewrite length_insert in Hlen.
    rewrite calls_by_extend, calls_of_one.
    rewrite decide_False, app_nil_r by lia. by apply H1.
  - intros k i. rewrite Hnews. simpl. rewrite length_alter. apply H2.
  - intros k k' i. rewrite !Hnews. apply H3.
  - intros k w Hw. simpl in Hw. rewrite Hlive.
    destruct (decide (k0 = k)) as [<-|Hne].
    + rewrite list_lookup_insert_eq in Hw by done.
      assert (w = with_tooltipComponent None v) by congruence. subst w.
      rewrite (H4 k0 v Hk), Hv. simpl.
      by rewrite filter_one, decide_False by naive_solver.
    + rewrite list_lookup_insert_ne in Hw by done.
      rewrite (H4 k w Hw). destruct (tooltipComponent w) as [c'|] eqn:Hw'; [|done].
      simpl. rewrite filter_one, decide_True; [done|].
      intros ->. apply Hne. apply (H3 k0 k c).
      * apply live_instances_news. rewrite (H4 k0 v Hk), Hv. simpl. by left.
      * apply live_instances_news. rewrite (H4 k w Hw), Hw'. simpl. by left.
  - simpl. by eapply wf_listeners_insert.
Qed.

Lemma consistent_mouseOver k s : consistent s → consistent (mouseOver k s).
Proof.
  intros Hs. closure_cases k s.
  - by rewrite (mouseOver_visible k s v c).
  - rewrite (mouseOver_hidden k s v) by done. by apply consistent_mount.
  - by rewrite mouseOver_absent.
Qed.

Lemma consistent_mouseLeave k s : consistent s → consistent (mouseLeave k s).
Proof.
  intros Hs. closure_cases k s.
  - rewrite (mouseLeave_visible k s v c) by done. by apply consistent_unmount.
  - by rewrite (mouseLeave_hidden k s v).
  - by rewrite mouseLeave_absent.
Qed.

Lemma consistent_update k o s : consistent s → consistent (update k o s).
Proof.
  intros Hs. unfold update. destruct (closures s !! k) as [v|] eqn:Hk; [|done].
  assert (consistent (set_vars k (with_content o v) s)) as Hs'
    by (by eapply consistent_set_vars).
  destruct (tooltipComponent v) as [c|]; [|done].
  apply consistent_patch; [done|]. simpl. rewrite length_insert.
  by eapply lookup_lt_Some.
Qed.

Lemma wf_listeners_filter cl ls (P : Listener → Prop) `{!∀ l, Decision (P l)} :
  wf_listeners cl ls → wf_listeners cl (filter P ls).
Proof. intros Hwf l [_ Hl]%list_elem_of_filter. by apply Hwf. Qed.

Lemma consistent_removeEventListener e ty cb s :
  consistent s → consistent (removeEventListener e ty cb s).
Proof.
  intros Hs. apply consistent_listeners; [done|].
  apply wf_listeners_filter, Hs.
Qed.

Lemma consistent_addEventListener e ty cb s :
  consistent s →
  (∃ k v, closures s !! k = Some v ∧
     (mkListener e ty cb = over_listener k v ∨ mkListener e ty cb = leave_listener k v)) →
  consistent (addEventListener e ty cb s).
Proof.
  intros Hs Hl. unfold addEventListener. case_decide; [done|].
  apply consistent_listeners; [done|].
  intros l [Hin| ->%list_elem_of_singleton]%elem_of_app; [|done].
  by apply Hs.
Qed.

Lemma consistent_destroy k s : consistent s → consistent (destroy k s).
Proof.
  intros Hs. unfold destroy. destruct (closures s !! k) as [v|]; [|done].
  by apply consistent_removeEventListener, consistent_removeEventListener,
    consistent_mouseLeave.
Qed.

Lemma consistent_hoverTooltip e o s :
  consistent s → consistent (hoverTooltip e o s).2.
Proof.
  intros Hs. unfold hoverTooltip. simpl.
  set (v0 := mkVars e None (tooltipText o) (tooltipBodyComponent o) (tooltipBodyProps o)).
  assert (consistent (with_closures (closures s ++ [v0]) s)) as Hs1
    by (by apply consistent_alloc).
  assert (∀ s', closures s' = closures s ++ [v0] →
            closures s' !! length (closures s) = Some v0) as Hlook.
  { intros s' ->. by rewrite list_lookup_middle. }
  apply consistent_addEventListener.
  - apply consistent_addEventListener; [done|].
    exists (length (closures s)), v0. split; [by apply Hlook|by left].
  - exists (length (closures s)), v0. split; [|by right].
    apply Hlook. unfold addEventListener. by case_decide.
Qed.

Lemma consistent_invoke s cb : consistent s → consistent (invoke s cb).
Proof.
  destruct cb; simpl; auto using consistent_mouseOver, consistent_mouseLeave.
Qed.

Lemma consistent_invokes cbs s : consistent s → consistent (foldl invoke s cbs).
Proof.
  revert s. induction cbs as [|cb cbs IH]; intros s Hs; simpl; [done|].
  by apply IH, consistent_invoke.
Qed.

Lemma consistent_step s a : consistent s → consistent (step s a).
Proof.
  intros Hs. destruct a; simpl.
  - by apply consistent_hoverTooltip.
  - by apply consistent_update.
  - by apply consistent_destroy.
  - by apply consistent_invokes.
  - by apply consistent_layout.
  - by apply consistent_layout.
Qed.

Lemma consistent_run tr s : consistent s → consistent (run s tr).
Proof.
  revert s. induction tr as [|a tr IH]; intros s Hs; simpl; [done|].
  by apply IH, consistent_step.
Qed.

Lemma consistent_reachable tr : consistent (run initial tr).
Proof. apply consistent_run, consistent_initial. Qed.

(** ** A callback leaves the other closures alone *)

Lemma mouseOver_other k0 k s :
  k0 ≠ k →
  closures (mouseOver k0 s) !! k = closures s !! k ∧
  calls_by k (mouseOver k0 s) = calls_by k s.
Proof.
  intros Hne. closure_cases k0 s.
  - by rewrite (mouseOver_visible k0 s v c).
  - rewrite (mouseOver_hidden k0 s v) by done. simpl. split.
    + by rewrite list_lookup_insert_ne.
    + by rewrite calls_by_extend, calls_of_two, decide_False, app_nil_r.
  - by rewrite mouseOver_absent.
Qed.

Lemma mouseLeave_other k0 k s :
  k0 ≠ k →
  closures (mouseLeave k0 s) !! k = closures s !! k ∧
  calls_by k (mouseLeave k0 s) = calls_by k s.
Proof.
  intros Hne. closure_cases k0 s.
  - rewrite (mouseLeave_visible k0 s v c) by done. simpl. split.
    + by rewrite list_lookup_insert_ne.
    + by rewrite calls_by_extend, calls_of_one, decide_False, app_nil_r.
  - by rewrite (mouseLeave_hidden k0 s v).
  - by rewrite mouseLeave_absent.
Qed.

Lemma steady_refl s : steady s s.
Proof. by split. Qed.

Lemma steady_trans s1 s2 s3 : steady s1 s2 → steady s2 s3 → steady s1 s3.
Proof.
  intros [A1 A2 A3 A4] [B1 B2 B3 B4]. split; try congruence. lia.
Qed.

Lemma steady_mouseOver k s : steady s (mouseOver k s).
Proof.
  closure_cases k s.
  - rewrite (mouseOver_visible k s v c) by done. apply steady_refl.
  - rewrite (mouseOver_hidden k s v) by done. split; simpl; try done.
    + by rewrite length_insert.
    + rewrite length_app. lia.
  - rewrite mouseOver_absent by done. apply steady_refl.
Qed.

Lemma steady_mouseLeave k s : steady s (mouseLeave k s).
Proof.
  closure_cases k s.
  - rewrite (mouseLeave_visible k s v c) by done. split; simpl; try done.
    + by rewrite length_insert.
    + by rewrite length_alter.
  - rewrite (mouseLeave_hidden k s v) by done. apply steady_refl.
  - rewrite mouseLeave_absent by done. apply steady_refl.
Qed.

Lemma steady_invoke s cb : steady s (invoke s cb).
Proof. destruct cb; [apply steady_mouseOver|apply steady_mouseLeave]. Qed.

Lemma steady_invokes cbs s : steady s (foldl invoke s cbs).
Proof.
  revert s. induction cbs as [|cb cbs IH]; intros s; simpl; [apply steady_refl|].
  eapply steady_trans; [apply steady_invoke|apply IH].
Qed.

Lemma invoke_other k s cb :
  owner cb ≠ k →
  closures (invoke s cb) !! k = closures s !! k ∧
  calls_by k (invoke s cb) = calls_by k s.
Proof.
  destruct cb; simpl; intros ?; [by apply mouseOver_other|by apply mouseLeave_other].
Qed.

Lemma invokes_other k cbs s :
  Forall (λ cb, owner cb ≠ k) cbs →
  closures (foldl invoke s cbs) !! k = closures s !! k ∧
  calls_by k (foldl invoke s cbs) = calls_by k s.
Proof.
  revert s. induction cbs as [|cb cbs IH]; intros s Hall; simpl; [done|].
  apply Forall_cons in Hall as [Hcb Hall].
  destruct (IH (invoke s cb) Hall) as [-> ->]. by apply invoke_other.
Qed.

(** ** A callback on its own closure *)

Section own_closure.

(** The closure looked at. *)
Variable k : ClosureId.

Lemma invoke_inert s v cb :
  closures s !! k = Some v → inert k v cb →
  closures (invoke s cb) !! k = Some v ∧ calls_by k (invoke s cb) = calls_by k s.
Proof.
  intros Hk Hcb. destruct (decide (owner cb = k)) as [Ho|Ho].
  - destruct cb as [k'|k']; simpl in *; subst k'.
    + destruct (Hcb eq_refl) as [c Hc]. by rewrite (mouseOver_visible k s v c).
    + by rewrite (mouseLeave_hidden k s v) by auto.
  - destruct (invoke_other k s cb Ho) as [-> ->]. done.
Qed.

Lemma invokes_inert cbs s v :
  closures s !! k = Some v → Forall (inert k v) cbs →
  closures (foldl invoke s cbs) !! k = Some v ∧
  calls_by k (foldl invoke s cbs) = calls_by k s.
Proof.
  revert s. induction cbs as [|cb cbs IH]; intros s Hk Hall; simpl; [done|].
  apply Forall_cons in Hall as [Hcb Hall].
  destruct (invoke_inert s v cb Hk Hcb) as [Hk' Hc'].
  destruct (IH (invoke s cb) Hk' Hall) as [-> ->]. done.
Qed.

Lemma invokes_mount cbs s v :
  closures s !! k = Some v → tooltipComponent v = None →
  cb_mouseOver k ∈ cbs → cb_mouseLeave k ∉ cbs →
  ∃ n, length (instances s) ≤ n ∧
    closures (foldl invoke s cbs) !! k = Some (with_tooltipComponent (Some n) v) ∧
    calls_by k (foldl invoke s cbs) =
      calls_by k s ++
        [call_getBoundingClientRect (element v);
         call_new n (mount_props v (default zero_rect (layout s !! element v)))
           document_body].
Proof.
  intros Hk Hv Hin Hout.
  apply list_elem_of_split_l in Hin as (l1 & l2 & -> & Hl1).
  rewrite foldl_app. simpl.
  set (s1 := foldl invoke s l1).
  destruct (invokes_inert l1 s v Hk) as [Hk1 Hc1].
  { apply Forall_forall. intros cb Hcb. destruct cb as [k'|k']; simpl.
    - intros ->. done.
    - by intros _. }
  fold s1 in Hk1, Hc1.
  pose proof (steady_invokes l1 s) as [_ Hly _ Hlen]. fold s1 in Hly, Hlen.
  exists (length (instances s1)). split; [done|].
  set (v1 := with_tooltipComponent (Some (length (instances s1))) v).
  assert (closures (mouseOver k s1) !! k = Some v1 ∧
          calls_by k (mouseOver k s1) =
            calls_by k s ++
              [call_getBoundingClientRect (element v);
               call_new (length (instances s1))
                 (mount_props v (default zero_rect (layout s !! element v)))
                 document_body]) as [Hk2 Hc2].
  { rewrite (mouseOver_hidden k s1 v) by done. simpl. split.
    - apply list_lookup_insert_eq. by eapply lookup_lt_Some.
    - by rewrite calls_by_extend, calls_of_two, decide_True, Hc1, Hly. }
  destruct (invokes_inert l2 (mouseOver k s1) v1 Hk2) as [Hk3 Hc3].
  { apply Forall_forall. intros cb Hcb. destruct cb as [k'|k']; simpl.
    - by intros _.
    - intros ->. exfalso. apply Hout. apply elem_of_app. right. by right. }
  by rewrite Hk3, Hc3.
Qed.

Lemma invokes_unmount cbs s v c :
  closures s !! k = Some v → tooltipComponent v = Some c →
  cb_mouseLeave k ∈ cbs → cb_mouseOver k ∉ cbs →
  closures (foldl invoke s cbs) !! k = Some (with_tooltipComponent None v) ∧
  calls_by k (foldl invoke s cbs) = calls_by k s ++ [call_destroy c].
Proof.
  intros Hk Hv Hin Hout.
  apply list_elem_of_split_l in Hin as (l1 & l2 & -> & Hl1).
  rewrite foldl_app. simpl.
  set (s1 := foldl invoke s l1).
  destruct (invokes_inert l1 s v Hk) as [Hk1 Hc1].
  { apply Forall_forall. intros cb Hcb. destruct cb as [k'|k']; simpl.
    - by intros _.
    - intros ->. done. }
  fold s1 in Hk1, Hc1.
  set (v1 := with_tooltipComponent None v).
  assert (closures (mouseLeave k s1) !! k = Some v1 ∧
          calls_by k (mouseLeave k s1) = calls_by k s ++ [call_destroy c])
    as [Hk2 Hc2].
  { rewrite (mouseLeave_visible k s1 v c) by done. simpl. split.
    - apply list_lookup_insert_eq. by eapply lookup_lt_Some.
    - by rewrite calls_by_extend, calls_of_one, decide_True, Hc1. }
  destruct (invokes_inert l2 (mouseLeave k s1) v1 Hk2) as [Hk3 Hc3].
  { apply Forall_forall. intros cb Hcb. destruct cb as [k'|k']; simpl.
    - intros ->. exfalso. apply Hout. apply elem_of_app. right. by right.
    - by intros _. }
  by rewrite Hk3, Hc3.
Qed.

End own_closure.

(** ** Listeners *)

Lemma elem_of_handlers e ty s cb :
  cb ∈ handlers e ty s ↔ mkListener e ty cb ∈ listeners s.
Proof.
  unfold handlers. rewrite list_elem_of_omap. split.
  - intros ([e' ty' cb'] & Hl & Hf). simpl in Hf.
    case_decide as Hd; [|done]. destruct Hd as [-> ->]. by simplify_eq.
  - intros Hl. exists (mkListener e ty cb). split; [done|]. simpl.
    by rewrite decide_True.
Qed.

Lemma elem_of_registered k s l :
  l ∈ registered k s ↔ owner (l_callback l) = k ∧ l ∈ listeners s.
Proof. unfold registered. by rewrite list_elem_of_filter. Qed.

Lemma listener_of_owner s k v l :
  consistent s → closures s !! k = Some v → l ∈ listeners s →
  owner (l_callback l) = k → l = over_listener k v ∨ l = leave_listener k v.
Proof.
  intros Hs Hk Hl Ho. destruct (listeners_wf s Hs l Hl) as (k' & w & Hw & Hc).
  assert (k' = k) as -> by (destruct Hc as [-> | ->]; simpl in Ho; congruence).
  assert (w = v) as -> by congruence. done.
Qed.

Lemma handlers_owner s k v e ty cb :
  consistent s → closures s !! k = Some v → cb ∈ handlers e ty s → owner cb = k →
  e = element v ∧
  (cb = cb_mouseOver k ∧ ty = mouseover ∨ cb = cb_mouseLeave k ∧ ty = mouseleave).
Proof.
  intros Hs Hk Hcb Ho. apply elem_of_handlers in Hcb.
  destruct (listener_of_owner s k v _ Hs Hk Hcb Ho) as [Hl|Hl];
    unfold over_listener, leave_listener in Hl; simplify_eq; auto.
Qed.

Lemma addEventListener_fields e ty cb s :
  closures (addEventListener e ty cb s) = closures s ∧
  calls (addEventListener e ty cb s) = calls s ∧
  instances (addEventListener e ty cb s) = instances s ∧
  layout (addEventListener e ty cb s) = layout s.
Proof. unfold addEventListener. by case_decide. Qed.

Lemma registered_addEventListener k e ty cb s :
  owner cb ≠ k → registered k (addEventListener e ty cb s) = registered k s.
Proof.
  intros Ho. unfold addEventListener. case_decide; [done|].
  unfold registered. simpl. rewrite filter_app, filter_one, decide_False by done.
  by rewrite app_nil_r.
Qed.

Lemma registered_removeEventListener k e ty cb s :
  owner cb ≠ k → registered k (removeEventListener e ty cb s) = registered k s.
Proof.
  intros Ho. unfold registered, removeEventListener. simpl.
  rewrite list_filter_filter. apply list_filter_iff. intros l.
  split; [tauto|]. intros Hl. split; [done|]. intros ->. by apply Ho.
Qed.

Lemma registered_steady k s s' : steady s s' → registered k s' = registered k s.
Proof. intros [Hl _ _ _]. unfold registered. by rewrite Hl. Qed.

(** ** One action, seen from one closure *)

Lemma update_own k o s v :
  closures s !! k = Some v →
  closures (update k o s) !! k = Some (with_content o v) ∧
  calls_by k (update k o s) =
    calls_by k s ++
      match tooltipComponent v with
      | Some c => [call_set c [set_tooltipText (tooltipText o)]]
      | None => []
      end ∧
  listeners (update k o s) = listeners s.
Proof.
  intros Hk. pose proof (lookup_lt_Some _ _ _ Hk) as Hlt.
  destruct (tooltipComponent v) as [c|] eqn:Hv.
  - rewrite (update_visible k o s v c) by done. simpl. split_and!; [|  |done].
    + by apply list_lookup_insert_eq.
    + by rewrite calls_by_extend, calls_of_one, decide_True.
  - rewrite (update_hidden k o s v) by done. simpl. split_and!; [| |done].
    + by apply list_lookup_insert_eq.
    + by rewrite app_nil_r.
Qed.

Lemma update_other k0 k o s :
  k0 ≠ k → untouched k s (update k0 o s).
Proof.
  intros Hne. closure_cases k0 s.
  - rewrite (update_visible k0 o s v c) by done. split_and!; simpl; [| |done].
    + by rewrite list_lookup_insert_ne.
    + by rewrite calls_by_extend, calls_of_one, decide_False, app_nil_r.
  - rewrite (update_hidden k0 o s v) by done. split_and!; simpl; [|done|done].
    by rewrite list_lookup_insert_ne.
  - by rewrite update_absent.
Qed.

Lemma mouseLeave_own k s v :
  closures s !! k = Some v →
  closures (mouseLeave k s) !! k = Some (with_tooltipComponent None v) ∧
  calls_by k (mouseLeave k s) =
    calls_by k s ++
      match tooltipComponent v with Some c => [call_destroy c] | None => [] end.
Proof.
  intros Hk. pose proof (lookup_lt_Some _ _ _ Hk) as Hlt.
  destruct (tooltipComponent v) as [c|] eqn:Hv.
  - rewrite (mouseLeave_visible k s v c) by done. simpl. split.
    + by apply list_lookup_insert_eq.
    + by rewrite calls_by_extend, calls_of_one, decide_True.
  - rewrite (mouseLeave_hidden k s v) by done.
    by rewrite app_nil_r, <- Hv, with_tooltipComponent_id.
Qed.

Lemma destroy_own k s v :
  consistent s → closures s !! k = Some v →
  closures (destroy k s) !! k = Some (with_tooltipComponent None v) ∧
  calls_by k (destroy k s) =
    calls_by k s ++
      match tooltipComponent v with Some c => [call_destroy c] | None => [] end ∧
  registered k (destroy k s) = [].
Proof.
  intros Hs Hk. destruct (mouseLeave_own k s v Hk) as [Hk' Hc'].
  unfold destroy. rewrite Hk. split_and!; [done|done|].
  apply elem_of_nil_inv. intros l Hl.
  apply elem_of_registered in Hl as [Ho Hl]. simpl in Hl.
  apply list_elem_of_filter in Hl as [Hl1 Hl].
  apply list_elem_of_filter in Hl as [Hl2 Hl].
  rewrite (steady_listeners _ _ (steady_mouseLeave k s)) in Hl.
  destruct (listener_of_owner s k v l Hs Hk Hl Ho); naive_solver.
Qed.

Lemma destroy_other k0 k s : k0 ≠ k → untouched k s (destroy k0 s).
Proof.
  intros Hne. unfold destroy. destruct (closures s !! k0) as [v|] eqn:Hk; [|done].
  destruct (mouseLeave_other k0 k s Hne) as [Hc Hl]. split_and!; [done|done|].
  rewrite !registered_removeEventListener by done.
  apply registered_steady, steady_mouseLeave.
Qed.

Lemma hoverTooltip_other k e o s :
  k < length (closures s) → untouched k s (hoverTooltip e o s).2.
Proof.
  intros Hlt. unfold hoverTooltip. simpl.
  set (s1 := with_closures _ s).
  set (s2 := addEventListener e mouseover _ s1).
  destruct (addEventListener_fields e mouseover (cb_mouseOver (length (closures s))) s1)
    as (Hc1 & Hl1 & _ & _).
  destruct (addEventListener_fields e mouseleave (cb_mouseLeave (length (closures s))) s2)
    as (Hc2 & Hl2 & _ & _).
  fold s2 in Hc1, Hl1. split_and!.
  - rewrite Hc2, Hc1. simpl. by apply lookup_app_l.
  - unfold calls_by. by rewrite Hl2, Hl1.
  - unfold s2. rewrite !registered_addEventListener by (simpl; lia). done.
Qed.

Lemma dispatchEvent_other k v e ty s :
  consistent s → closures s !! k = Some v → e ≠ element v →
  untouched k s (dispatchEvent e ty s).
Proof.
  intros Hs Hk He. unfold dispatchEvent.
  destruct (invokes_other k (handlers e ty s) s) as [Hc Hl].
  { apply Forall_forall. intros cb Hcb Ho.
    by destruct (handlers_owner s k v e ty cb Hs Hk Hcb Ho) as [-> _]. }
  split_and!; [done|done|]. apply registered_steady, steady_invokes.
Qed.

Lemma step_untouched k v s a :
  consistent s → closures s !! k = Some v → ¬ concerns k (element v) a →
  untouched k s (step s a).
Proof.
  intros Hs Hk Ha. destruct a as [e o|k' o|k'|e ty|e r|e]; simpl in *.
  - apply hoverTooltip_other. by eapply lookup_lt_Some.
  - by apply update_other.
  - by apply destroy_other.
  - by eapply dispatchEvent_other.
  - done.
  - done.
Qed.

(** ** An event on the element of the closure *)

Lemma dispatchEvent_registered k e ty s :
  registered k (dispatchEvent e ty s) = registered k s.
Proof. apply registered_steady, steady_invokes. Qed.

Lemma dispatchEvent_mount k v s :
  consistent s → closures s !! k = Some v → tooltipComponent v = None →
  over_listener k v ∈ registered k s →
  ∃ n, length (instances s) ≤ n ∧
    closures (dispatchEvent (element v) mouseover s) !! k =
      Some (with_tooltipComponent (Some n) v) ∧
    calls_by k (dispatchEvent (element v) mouseover s) =
      calls_by k s ++
        [call_getBoundingClientRect (element v);
         call_new n (mount_props v (default zero_rect (layout s !! element v)))
           document_body].
Proof.
  intros Hs Hk Hv [_ Hreg]%elem_of_registered.
  apply invokes_mount; [done|done| |].
  - by apply elem_of_handlers.
  - intros Hcb.
    destruct (handlers_owner s k v _ _ _ Hs Hk Hcb eq_refl) as [_ [[? _]|[_ ?]]]; done.
Qed.

Lemma dispatchEvent_unmount k v c s :
  consistent s → closures s !! k = Some v → tooltipComponent v = Some c →
  leave_listener k v ∈ registered k s →
  closures (dispatchEvent (element v) mouseleave s) !! k =
    Some (with_tooltipComponent None v) ∧
  calls_by k (dispatchEvent (element v) mouseleave s) =
    calls_by k s ++ [call_destroy c].
Proof.
  intros Hs Hk Hv [_ Hreg]%elem_of_registered.
  apply invokes_unmount; [done|done| |].
  - by apply elem_of_handlers.
  - intros Hcb.
    destruct (handlers_owner s k v _ _ _ Hs Hk Hcb eq_refl) as [_ [[_ ?]|[? _]]]; done.
Qed.

(** The cases in which an event does nothing to the closure: none of its
    listeners is registered, the event is an enter while the handle is set,
    or a leave while it is not. *)
Lemma dispatchEvent_idle k v e ty s :
  consistent s → closures s !! k = Some v →
  registered k s = [] ∨
  ty = mouseover ∧ is_Some (tooltipComponent v) ∨
  ty = mouseleave ∧ tooltipComponent v = None →
  closures (dispatchEvent e ty s) !! k = Some v ∧
  calls_by k (dispatchEvent e ty s) = calls_by k s.
Proof.
  intros Hs Hk Hcase. apply invokes_inert; [done|].
  apply Forall_forall. intros cb Hcb.
  assert (owner cb = k → inert k v cb) as Hown.
  { intros Ho.
    destruct (handlers_owner s k v e ty cb Hs Hk Hcb Ho) as [-> Hty].
    destruct Hcase as [Hnil|[[-> Hv]|[-> Hv]]].
    - exfalso. apply elem_of_handlers in Hcb.
      assert (mkListener (element v) ty cb ∈ registered k s) as Hin
        by (by apply elem_of_registered).
      rewrite Hnil in Hin. by apply elem_of_nil in Hin.
    - destruct Hty as [[-> _]|[_ ?]]; [|done]. by intros _.
    - destruct Hty as [[_ ?]|[-> _]]; [done|]. by intros _. }
  destruct cb as [k'|k']; simpl in *; intros ->; by apply Hown.
Qed.

(** ** The closure follows the state machine *)

Lemma phase_step_unconcerned k e p a :
  ¬ concerns k e a → phase_step k e p a = p.
Proof.
  destruct a; simpl; try done; intros Hne; by rewrite decide_False.
Qed.

Lemma step_phase k e p s a :
  consistent s → in_phase k e p s →
  in_phase k e (phase_step k e p a) (step s a).
Proof.
  intros Hs (v & Hk & He & Hp).
  destruct (decide (concerns k e a)) as [Hc|Hc].
  - destruct a as [e' o|k' o|k'|e' ty|e' r|e']; simpl in Hc; try done; subst.
    + (* update *)
      destruct (update_own k o s v Hk) as (Hk' & _ & Hl).
      exists (with_content o v). simpl step. split_and!; [done|done|].
      unfold registered. rewrite Hl. by destruct p.
    + (* destroy *)
      destruct (destroy_own k s v Hs Hk) as (Hk' & _ & Hl).
      exists (with_tooltipComponent None v). simpl.
      rewrite decide_True by done. by split_and!.
    + (* an event on the element *)
      simpl. rewrite decide_True by done.
      destruct p; [destruct Hp as (Hv & Ho & Hl)..|destruct Hp as (Hv & Hnil)].
      * destruct ty.
        -- destruct (dispatchEvent_mount k v s Hs Hk Hv Ho) as (n & _ & Hk' & _).
           exists (with_tooltipComponent (Some n) v).
           rewrite dispatchEvent_registered. by split_and!.
        -- destruct (dispatchEvent_idle k v (element v) mouseleave s Hs Hk)
             as [Hk' _]; [by auto|].
           exists v. rewrite dispatchEvent_registered. by split_and!.
      * destruct ty.
        -- destruct (dispatchEvent_idle k v (element v) mouseover s Hs Hk)
             as [Hk' _]; [by auto|].
           exists v. rewrite dispatchEvent_registered. by split_and!.
        -- destruct Hv as [c Hv].
           destruct (dispatchEvent_unmount k v c s Hs Hk Hv Hl) as [Hk' _].
           exists (with_tooltipComponent None v).
           rewrite dispatchEvent_registered. by split_and!.
      * destruct (dispatchEvent_idle k v (element v) ty s Hs Hk) as [Hk' _];
          [by auto|].
        exists v. rewrite dispatchEvent_registered. by destruct ty; split_and!.
  - rewrite phase_step_unconcerned by done.
    destruct (step_untouched k v s a Hs Hk) as (Hk' & _ & Hl); [by rewrite He|].
    exists v. rewrite Hk', Hl. by split_and!.
Qed.

Lemma run_phase k e p tr s :
  consistent s → in_phase k e p s →
  in_phase k e (phase_from k e p tr) (run s tr).
Proof.
  revert s p. induction tr as [|a tr IH]; intros s p Hs Hp; simpl; [done|].
  apply IH; [by apply consistent_step|by apply step_phase].
Qed.

(** ** Attaching *)

Lemma addEventListener_elem e ty cb s :
  mkListener e ty cb ∈ listeners (addEventListener e ty cb s).
Proof.
  unfold addEventListener. case_decide; [done|]. simpl.
  apply elem_of_app. right. by left.
Qed.

Lemma addEventListener_mono e ty cb s l :
  l ∈ listeners s → l ∈ listeners (addEventListener e ty cb s).
Proof.
  intros Hl. unfold addEventListener. case_decide; [done|]. simpl.
  apply elem_of_app. by left.
Qed.

Lemma hoverTooltip_fields e o s :
  (hoverTooltip e o s).1 = length (closures s) ∧
  instances (hoverTooltip e o s).2 = instances s ∧
  calls (hoverTooltip e o s).2 = calls s ∧
  layout (hoverTooltip e o s).2 = layout s ∧
  closures (hoverTooltip e o s).2 =
    closures s ++
      [mkVars e None (tooltipText o) (tooltipBodyComponent o) (tooltipBodyProps o)].
Proof.
  unfold hoverTooltip. simpl.
  set (s1 := with_closures _ s).
  set (s2 := addEventListener e mouseover _ s1).
  destruct (addEventListener_fields e mouseover (cb_mouseOver (length (closures s))) s1)
    as (Hc1 & Hl1 & Hi1 & Hy1).
  destruct (addEventListener_fields e mouseleave (cb_mouseLeave (length (closures s))) s2)
    as (Hc2 & Hl2 & Hi2 & Hy2).
  fold s2 in Hc1, Hl1, Hi1, Hy1.
  rewrite Hc2, Hl2, Hi2, Hy2, Hc1, Hl1, Hi1, Hy1. done.
Qed.

Lemma hoverTooltip_own e o s :
  consistent s →
  in_phase (length (closures s)) e Hidden (hoverTooltip e o s).2 ∧
  calls_by (length (closures s)) (hoverTooltip e o s).2 = [].
Proof.
  intros Hs. destruct (hoverTooltip_fields e o s) as (_ & _ & Hc & _ & Hcl).
  split.
  - exists (mkVars e None (tooltipText o) (tooltipBodyComponent o) (tooltipBodyProps o)).
    split_and!; try done.
    + rewrite Hcl. by rewrite list_lookup_middle.
    + apply elem_of_registered. split; [done|].
      unfold hoverTooltip. simpl. apply addEventListener_mono, addEventListener_elem.
    + apply elem_of_registered. split; [done|].
      unfold hoverTooltip. simpl. apply addEventListener_elem.
  - unfold calls_by. rewrite Hc. by apply (calls_closed s Hs).
Qed.

Lemma run_app s tr1 tr2 : run s (tr1 ++ tr2) = run (run s tr1) tr2.
Proof. apply foldl_app. Qed.

Lemma run_attach pre e o post :
  run initial (pre ++ Attach e o :: post) =
  run (hoverTooltip e o (run initial pre)).2 post.
Proof. by rewrite run_app. Qed.

(** ** The state machine and the processed events *)

Lemma phase_from_Unbound k e tr : phase_from k e Unbound tr = Unbound.
Proof.
  induction tr as [|a tr IH]; [done|]. unfold phase_from in *. simpl.
  destruct a; simpl; try done; by case_decide.
Qed.

Lemma phase_from_processed k e tr p :
  p ≠ Unbound →
  phase_from k e p tr =
    match last (processed k e tr) with
    | Some enter => Visible
    | Some leave => Hidden
    | Some detach => Unbound
    | None => p
    end.
Proof.
  revert p. induction tr as [|a tr IH]; intros p Hp; [done|].
  change (phase_from k e p (a :: tr)) with (phase_from k e (phase_step k e p a) tr).
  destruct a as [e' o|k' o|k'|e' ty|e' r|e']; simpl; try by apply IH.
  - case_decide; [|by apply IH]. by rewrite phase_from_Unbound.
  - case_decide; [|by apply IH]. rewrite last_cons.
    destruct p, ty; try done; rewrite IH by done;
      by destruct (last (processed k e tr)) as [[]|].
Qed.

Lemma phase_hovering k e tr :
  phase_from k e Hidden tr = Visible ↔ hovering k e tr.
Proof.
  unfold hovering. rewrite phase_from_processed by done.
  destruct (last (processed k e tr)) as [[]|]; naive_solver.
Qed.

Lemma live_instances_length k s v :
  consistent s → closures s !! k = Some v → length (live_instances k s) ≤ 1.
Proof.
  intros Hs Hk. rewrite (live_handle s Hs k v Hk).
  destruct (tooltipComponent v); simpl; lia.
Qed.

(** C1: whatever happened on the page before and after a controller was
    attached, its [tooltipComponent] is set exactly when the controller is
    in the hovering interval (the last event it processed is an enter),
    and the instances it created that are still mounted are that one
    instance, or none: never more than one. *)
Theorem live_instance_iff_hovering pre e o post :
  let k := length (closures (run initial pre)) in
  let s := run initial (pre ++ Attach e o :: post) in
  ∃ v, closures s !! k = Some v ∧ element v = e ∧
    (is_Some (tooltipComponent v) ↔ hovering k e post) ∧
    live_instances k s = option_list (tooltipComponent v) ∧
    length (live_instances k s) ≤ 1.
Proof.
  intros k s. unfold s. rewrite run_attach.
  set (s0 := run initial pre).
  assert (consistent s0) as Hs0 by apply consistent_reachable.
  destruct (hoverTooltip_own e o s0 Hs0) as [Hph _].
  assert (consistent (hoverTooltip e o s0).2) as Hs1
    by (by apply consistent_hoverTooltip).
  pose proof (run_phase k e Hidden post _ Hs1 Hph) as (v & Hk & He & Hp).
  assert (consistent (run (hoverTooltip e o s0).2 post)) as Hs2
    by (by apply consistent_run).
  exists v. split_and!; [done|done| | |].
  - rewrite <- phase_hovering. fold k.
    destruct (phase_from k e Hidden post); destruct Hp as [Hv _].
    + rewrite Hv. split; [by intros [? ?]|done].
    + done.
    + rewrite Hv. split; [by intros [? ?]|done].
  - by apply live_handle.
  - by eapply live_instances_length.
Qed.

(** ** One action, seen from one closure: the complete account *)

Lemma step_view k p s a v :
  consistent s → closures s !! k = Some v → in_phase k (element v) p s →
  ∃ n, length (instances s) ≤ n ∧
    closures (step s a) !! k = Some (next_vars k p v n a) ∧
    calls_by k (step s a) =
      calls_by k s ++
        next_calls k p v (default zero_rect (layout s !! element v)) n a.
Proof.
  intros Hs Hk (v' & Hk' & _ & Hp).
  assert (v' = v) as -> by congruence. clear Hk'.
  destruct (decide (concerns k (element v) a)) as [Hc|Hc].
  - destruct a as [e' o|k' o|k'|e' ty|e' r|e']; simpl in Hc; try done; subst.
    + destruct (update_own k o s v Hk) as (Hk' & Hc' & _).
      exists (length (instances s)). simpl. rewrite !decide_True by done. auto.
    + destruct (destroy_own k s v Hs Hk) as (Hk' & Hc' & _).
      exists (length (instances s)). simpl. rewrite !decide_True by done. auto.
    + destruct ty.
      * destruct (decide (p = Hidden)) as [->|Hp'].
        -- destruct Hp as (Hv & Ho & _).
           destruct (dispatchEvent_mount k v s Hs Hk Hv Ho) as (n & Hn & Hk' & Hc').
           exists n. simpl. rewrite !decide_True by done. auto.
        -- exists (length (instances s)). simpl.
           rewrite !decide_False, app_nil_r by tauto.
           split; [done|]. apply dispatchEvent_idle; [done|done|].
           destruct p; [done|right; left; tauto|left; tauto].
      * exists (length (instances s)). simpl. rewrite !decide_True by done.
        split; [done|]. unfold teardown.
        destruct (tooltipComponent v) as [c|] eqn:Hv.
        -- apply dispatchEvent_unmount; [done|done|done|].
           destruct p; destruct Hp as (Hv' & Hl); [congruence|tauto|congruence].
        -- assert (with_tooltipComponent None v = v) as ->
             by (rewrite <- Hv; apply with_tooltipComponent_id).
           rewrite app_nil_r. apply dispatchEvent_idle; auto.
  - destruct (step_untouched k v s a Hs Hk Hc) as (Hk' & Hc' & _).
    exists (length (instances s)). rewrite Hk', Hc'. split; [done|].
    destruct a as [e' o|k' o|k'|e' [|]|e' r|e']; simpl in *;
      rewrite ?decide_False, ?app_nil_r by tauto; done.
Qed.

(** ** Enter/leave pairs *)

Lemma pair_calls_news v r cs : omap new_id (pair_calls v r cs) = cs.
Proof. induction cs as [|c cs IH]; csimpl; [done|]. by rewrite IH. Qed.

Lemma pair_calls_destroys v r cs : omap destroy_id (pair_calls v r cs) = cs.
Proof. induction cs as [|c cs IH]; csimpl; [done|]. by rewrite IH. Qed.

Lemma pair_calls_life v r cs : omap life_of (pair_calls v r cs) = life_pairs cs.
Proof. induction cs as [|c cs IH]; csimpl; [done|]. by rewrite IH. Qed.

Lemma with_tooltipComponent_twice c c' v :
  with_tooltipComponent c' (with_tooltipComponent c v) = with_tooltipComponent c' v.
Proof. done. Qed.

Lemma step_Fire_layout s e ty : layout (step s (Fire e ty)) = layout s.
Proof. apply (steady_layout _ _ (steady_invokes _ s)). Qed.

Lemma enter_while_hidden k s v :
  consistent s → closures s !! k = Some v → in_phase k (element v) Hidden s →
  ∃ n, length (instances s) ≤ n ∧
    closures (step s (Fire (element v) mouseover)) !! k =
      Some (with_tooltipComponent (Some n) v) ∧
    calls_by k (step s (Fire (element v) mouseover)) =
      calls_by k s ++
        [call_getBoundingClientRect (element v);
         call_new n (mount_props v (default zero_rect (layout s !! element v)))
           document_body] ∧
    in_phase k (element v) Visible (step s (Fire (element v) mouseover)).
Proof.
  intros Hs Hk Hp.
  destruct (step_view k Hidden s (Fire (element v) mouseover) v Hs Hk Hp)
    as (n & Hn & Hk1 & Hc1).
  pose proof (step_phase k (element v) Hidden s (Fire (element v) mouseover) Hs Hp)
    as Hp1.
  simpl in *. rewrite decide_True in Hk1 by done.
  rewrite decide_True in Hc1 by done. rewrite decide_True in Hp1 by done.
  by exists n.
Qed.

Lemma leave_while_visible k s v c :
  consistent s → closures s !! k = Some v → tooltipComponent v = Some c →
  in_phase k (element v) Visible s →
  closures (step s (Fire (element v) mouseleave)) !! k =
    Some (with_tooltipComponent None v) ∧
  calls_by k (step s (Fire (element v) mouseleave)) =
    calls_by k s ++ [call_destroy c] ∧
  in_phase k (element v) Hidden (step s (Fire (element v) mouseleave)).
Proof.
  intros Hs Hk Hv Hp.
  destruct (step_view k Visible s (Fire (element v) mouseleave) v Hs Hk Hp)
    as (n & Hn & Hk1 & Hc1).
  pose proof (step_phase k (element v) Visible s (Fire (element v) mouseleave) Hs Hp)
    as Hp1.
  simpl in *. rewrite decide_True in Hk1 by done.
  rewrite decide_True in Hc1 by done. rewrite decide_True in Hp1 by done.
  unfold teardown in Hc1. rewrite Hv in Hc1. done.
Qed.

Lemma hover_pairs_calls k N s v :
  consistent s → closures s !! k = Some v → in_phase k (element v) Hidden s →
  ∃ cs, length cs = N ∧ NoDup cs ∧
    Forall (λ c, length (instances s) ≤ c) cs ∧
    closures (run s (hover_pairs (element v) N)) !! k = Some v ∧
    in_phase k (element v) Hidden (run s (hover_pairs (element v) N)) ∧
    calls_by k (run s (hover_pairs (element v) N)) =
      calls_by k s ++
        pair_calls v (default zero_rect (layout s !! element v)) cs.
Proof.
  revert s. induction N as [|N IH]; intros s Hs Hk Hp.
  - exists []. simpl. rewrite app_nil_r. split_and!; try done; constructor.
  - assert (tooltipComponent v = None) as Hv.
    { destruct Hp as (v' & Hk' & _ & Hv' & _). congruence. }
    destruct (enter_while_hidden k s v Hs Hk Hp) as (n & Hn & Hk1 & Hc1 & Hp1).
    change (run s (hover_pairs (element v) (S N))) with
      (run (step (step s (Fire (element v) mouseover)) (Fire (element v) mouseleave))
         (hover_pairs (element v) N)).
    set (s1 := step s (Fire (element v) mouseover)) in *.
    assert (consistent s1) as Hs1 by (by apply consistent_step).
    destruct (leave_while_visible k s1 (with_tooltipComponent (Some n) v) n
                Hs1 Hk1 eq_refl Hp1) as (Hk2 & Hc2 & Hp2).
    assert (with_tooltipComponent None v = v) as Hid
      by (rewrite <- Hv; apply with_tooltipComponent_id).
    rewrite with_tooltipComponent_twice, Hid in Hk2.
    change (element (with_tooltipComponent (Some n) v)) with (element v) in *.
    set (s2 := step s1 (Fire (element v) mouseleave)) in *.
    assert (consistent s2) as Hs2 by (by apply consistent_step).
    destruct (IH s2 Hs2 Hk2 Hp2) as (cs & Hlen & Hnd & Hfresh & Hk3 & Hp3 & Hc3).
    assert (n < length (instances s1)) as Hn1.
    { apply (news_fresh s1 Hs1 k). unfold news. rewrite Hc1, omap_app.
      apply elem_of_app. right. simpl. by left. }
    assert (length (instances s1) ≤ length (instances s2)) as Hle12
      by apply (steady_instances _ _ (steady_invokes _ s1)).
    assert (length (instances s) ≤ length (instances s1)) as Hle01
      by apply (steady_instances _ _ (steady_invokes _ s)).
    exists (n :: cs). split_and!.
    + simpl. by rewrite Hlen.
    + constructor; [|done]. intros Hin.
      rewrite Forall_forall in Hfresh. apply Hfresh in Hin. lia.
    + constructor; [done|]. eapply Forall_impl; [exact Hfresh|].
      simpl. intros c Hc. lia.
    + done.
    + done.
    + rewrite Hc3, Hc2, Hc1. unfold s2, s1. rewrite !step_Fire_layout.
      rewrite <- !app_assoc. done.
Qed.

(** C2: from a controller that is attached and hidden, [N] enter/leave
    pairs create exactly [N] instances and destroy exactly those [N], each
    one destroyed before the next is created; at no point in between are
    two instances of the controller mounted, and none is at the end. *)
Theorem enter_leave_pairs_do_not_leak pre e o mid N :
  let k := length (closures (run initial pre)) in
  let s := run initial (pre ++ Attach e o :: mid) in
  let s' := run s (hover_pairs e N) in
  phase_from k e Hidden mid = Hidden →
  ∃ cs, length cs = N ∧ NoDup cs ∧
    news k s' = news k s ++ cs ∧
    destroys k s' = destroys k s ++ cs ∧
    lifecycle k s' = lifecycle k s ++ life_pairs cs ∧
    length (news k s') = length (news k s) + N ∧
    length (destroys k s') = length (destroys k s) + N ∧
    (∀ tr, tr `prefix_of` hover_pairs e N →
       length (live_instances k (run s tr)) ≤ 1) ∧
    live_instances k s' = [].
Proof.
  intros k s s' Hph.
  assert (consistent s) as Hs by apply consistent_reachable.
  assert (in_phase k e Hidden s) as Hp.
  { unfold s. rewrite run_attach. rewrite <- Hph.
    apply run_phase; [apply consistent_hoverTooltip, consistent_reachable|].
    apply hoverTooltip_own, consistent_reachable. }
  pose proof Hp as (v & Hk & He & Hv & _). subst e.
  destruct (hover_pairs_calls k N s v Hs Hk Hp)
    as (cs & Hlen & Hnd & _ & Hk' & Hp' & Hc').
  fold s' in Hk', Hp', Hc'.
  assert (news k s' = news k s ++ cs) as Hnews
    by (unfold news; by rewrite Hc', omap_app, pair_calls_news).
  assert (destroys k s' = destroys k s ++ cs) as Hdes
    by (unfold destroys; by rewrite Hc', omap_app, pair_calls_destroys).
  exists cs. split_and!; try done.
  - unfold lifecycle. by rewrite Hc', omap_app, pair_calls_life.
  - rewrite Hnews, length_app. lia.
  - rewrite Hdes, length_app. lia.
  - intros tr _.
    pose proof (run_phase k (element v) Hidden tr s Hs Hp) as (w & Hw & _).
    eapply live_instances_length; [|exact Hw]. by apply consistent_run.
  - rewrite (live_handle s' (consistent_run _ _ Hs) k v Hk'), Hv. done.
Qed.

Lemma enter_leave_pairs_do_not_leak_witness :
  phase_from 0 7 Hidden [Fire 7 mouseover; Update 0 label_B; Fire 7 mouseleave]
    = Hidden ∧
  ∃ cs, length cs = 3 ∧ NoDup cs ∧
    lifecycle 0
      (run (run initial ([Reflow 7 target_rect] ++ Attach 7 label_A ::
                           [Fire 7 mouseover; Update 0 label_B; Fire 7 mouseleave]))
         (hover_pairs 7 3))
    = [created 0; torn_down 0] ++ life_pairs cs.
Proof.
  split; [reflexivity|].
  destruct (enter_leave_pairs_do_not_leak [Reflow 7 target_rect] 7 label_A
              [Fire 7 mouseover; Update 0 label_B; Fire 7 mouseleave] 3 eq_refl)
    as (cs & Hlen & Hnd & _ & _ & Hlife & _).
  exists cs. split_and!; [exact Hlen|exact Hnd|exact Hlife].
Defined.

(** ** The content a closure holds *)

Lemma invoke_vars k s v cb :
  closures s !! k = Some v →
  ∃ h, closures (invoke s cb) !! k = Some (with_tooltipComponent h v).
Proof.
  intros Hk. destruct (decide (owner cb = k)) as [Ho|Ho].
  - destruct cb as [k'|k']; simpl in *; subst k'.
    + destruct (tooltipComponent v) as [c|] eqn:Hv.
      * exists (Some c). rewrite (mouseOver_visible k s v c) by done.
        by rewrite <- Hv, with_tooltipComponent_id.
      * eexists. rewrite (mouseOver_hidden k s v) by done. simpl.
        apply list_lookup_insert_eq. by eapply lookup_lt_Some.
    + exists None. by apply mouseLeave_own.
  - exists (tooltipComponent v). rewrite with_tooltipComponent_id.
    destruct (invoke_other k s cb Ho) as [-> _]. done.
Qed.

Lemma invokes_vars k cbs s v :
  closures s !! k = Some v →
  ∃ h, closures (foldl invoke s cbs) !! k = Some (with_tooltipComponent h v).
Proof.
  revert s v. induction cbs as [|cb cbs IH]; intros s v Hk; simpl.
  - exists (tooltipComponent v). by rewrite with_tooltipComponent_id.
  - destruct (invoke_vars k s v cb Hk) as [h Hk'].
    destruct (IH _ _ Hk') as [h' Hk'']. exists h'. by rewrite Hk''.
Qed.

Lemma step_holds k o s a v :
  consistent s → closures s !! k = Some v → holds o v →
  ∃ v', closures (step s a) !! k = Some v' ∧ holds (content_step k o a) v'.
Proof.
  intros Hs Hk Ho.
  destruct a as [e' o'|k' o'|k'|e' ty|e' r|e']; cbn [step content_step].
  - exists v. split; [|done].
    destruct (hoverTooltip_fields e' o' s) as (_ & _ & _ & _ & ->).
    by apply lookup_app_l_Some.
  - case_decide as Hd.
    + subst k'. destruct (update_own k o' s v Hk) as (Hk' & _). by eexists.
    + exists v. split; [|done]. by destruct (update_other k' k o' s Hd) as (-> & _).
  - destruct (decide (k' = k)) as [->|Hd].
    + destruct (destroy_own k s v Hs Hk) as (Hk' & _). by eexists.
    + exists v. split; [|done]. by destruct (destroy_other k' k s Hd) as (-> & _).
  - destruct (invokes_vars k (handlers e' ty s) s v Hk) as [h Hk']. by eexists.
  - by exists v.
  - by exists v.
Qed.

Lemma run_holds k o tr s v :
  consistent s → closures s !! k = Some v → holds o v →
  ∃ v', closures (run s tr) !! k = Some v' ∧ holds (content k o tr) v'.
Proof.
  revert s o v. induction tr as [|a tr IH]; intros s o v Hs Hk Ho; simpl.
  - by exists v.
  - destruct (step_holds k o s a v Hs Hk Ho) as (v' & Hk' & Ho').
    apply (IH _ _ v'); [by apply consistent_step|done|done].
Qed.

Lemma mounts_next_calls k e p v r n a :
  element v = e →
  omap mount_of (next_calls k p v r n a) =
    if decide (p = Hidden ∧ a = Fire e mouseover)
    then [(mount_props v r, document_body)] else [].
Proof.
  intros <-. destruct a as [e' o'|k' o'|k'|e' [|]|e' r'|e']; simpl.
  - by rewrite decide_False by (by intros [_ ?]).
  - rewrite (decide_False (P := _ ∧ _)) by (by intros [_ ?]).
    case_decide; [|done]. by destruct (tooltipComponent v).
  - rewrite (decide_False (P := _ ∧ _)) by (by intros [_ ?]).
    case_decide; [|done]. unfold teardown. by destruct (tooltipComponent v).
  - destruct (decide (e' = element v ∧ p = Hidden)) as [[-> ->]|Hn].
    + by rewrite decide_True.
    + rewrite decide_False; [done|]. intros [-> [= ->]]. by apply Hn.
  - rewrite (decide_False (P := _ ∧ _)) by (by intros [_ ?]).
    case_decide; [|done]. unfold teardown. by destruct (tooltipComponent v).
  - by rewrite decide_False by (by intros [_ ?]).
  - by rewrite decide_False by (by intros [_ ?]).
Qed.

(** C3 as stated fails.  The claim that the body component and body props
    of every mount are those given at attach time does not hold: after an [update] with the body
    renderer [R2], the next mount is given [R2], not the [R1] of attach
    time. *)
Lemma mount_after_update_counterexample :
  (λ m, p_tooltipBodyComponent m.1) <$>
    mounts 0 (run initial [Attach 7 content_R1; Update 0 content_R2; Fire 7 mouseover])
  = [Some R2] ∧
  ¬ Forall
      (λ m, p_tooltipBodyComponent m.1 = tooltipBodyComponent content_R1 ∧
            p_tooltipBodyProps m.1 = tooltipBodyProps content_R1)
      (mounts 0 (run initial [Attach 7 content_R1; Update 0 content_R2;
                              Fire 7 mouseover])).
Proof.
  split; [by vm_compute|].
  intros H. apply Forall_cons in H as [[H _] _]. vm_compute in H. discriminate H.
Qed.

(** C3, amended: the props of a mount are the content the controller holds
    at that moment, which is the content of the last [update] before it, or
    the content given at attach time if there was none.  One action makes
    the controller mount at most once, and only an enter while hidden. *)
Theorem mount_uses_current_content pre e o post a :
  let k := length (closures (run initial pre)) in
  let s := run initial (pre ++ Attach e o :: post) in
  let c := content k o post in
  ∃ x y,
    mounts k (step s a) =
      mounts k s ++
        if decide (phase_from k e Hidden post = Hidden ∧ a = Fire e mouseover)
        then [(mkProps (tooltipText c) (tooltipBodyComponent c) (tooltipBodyProps c) x y,
               document_body)]
        else [].
Proof.
  intros k s c. unfold s. rewrite run_attach.
  set (s0 := run initial pre).
  assert (consistent s0) as Hs0 by apply consistent_reachable.
  destruct (hoverTooltip_own e o s0 Hs0) as [Hph _].
  assert (consistent (hoverTooltip e o s0).2) as Hs1
    by (by apply consistent_hoverTooltip).
  pose proof (run_phase k e Hidden post _ Hs1 Hph) as Hp.
  pose proof Hph as (v0 & Hk0 & _).
  assert (holds o v0) as Ho.
  { destruct (hoverTooltip_fields e o s0) as (_ & _ & _ & _ & Hcl).
    rewrite Hcl in Hk0. fold k in Hk0. unfold k in Hk0.
    rewrite list_lookup_middle in Hk0 by done. by simplify_eq. }
  destruct (run_holds k o post _ v0 Hs1 Hk0 Ho) as (v & Hk & Hc). fold c in Hc.
  set (s1 := run (hoverTooltip e o s0).2 post) in *.
  assert (consistent s1) as Hs2 by (by apply consistent_run).
  assert (element v = e) as He.
  { destruct Hp as (v' & Hk' & He' & _). congruence. }
  rewrite <- He in Hp.
  destruct (step_view k _ s1 a v Hs2 Hk Hp) as (n & _ & _ & Hcalls).
  set (r := default zero_rect (layout s1 !! element v)) in *.
  exists (left r + width r / 2)%Q, (bottom r).
  unfold mounts. rewrite Hcalls, omap_app.
  rewrite (mounts_next_calls k e) by done. rewrite He.
  destruct Hc as (<- & <- & <-). done.
Qed.

(** ** Updating while visible *)

Lemma handle_Some k s c :
  handle k s = Some c ↔ ∃ v, closures s !! k = Some v ∧ tooltipComponent v = Some c.
Proof.
  unfold handle. destruct (closures s !! k) as [v|]; simpl.
  - split; [by exists v|]. by intros (v' & [= <-] & Hv).
  - split; [done|]. by intros (v' & ? & _).
Qed.

Lemma handle_mounted k s c :
  consistent s → handle k s = Some c →
  ∃ inst, instances s !! c = Some inst ∧ destroyed inst = false.
Proof.
  intros Hs (v & Hk & Hv)%handle_Some.
  pose proof (live_handle s Hs k v Hk) as Hl. rewrite Hv in Hl.
  assert (c ∈ live_instances k s) as Hin by (rewrite Hl; by left).
  apply list_elem_of_filter in Hin as [Hlive _].
  unfold live_in in Hlive. destruct (instances s !! c) as [inst|]; [|done].
  exists inst. split; [done|]. by destruct (destroyed inst).
Qed.

(** C4: while an instance is mounted, [update] keeps the handle, neither
    destroys nor creates an instance, and patches the label of the mounted
    instance to the new one; the body component, the body props, the anchor
    and the parent of that instance, and every other instance, stay as
    they are. *)
Theorem update_patches_label_only tr k c o :
  let s := run initial tr in
  let s' := update k o s in
  handle k s = Some c →
  handle k s' = Some c ∧
  calls_by k s' = calls_by k s ++ [call_set c [set_tooltipText (tooltipText o)]] ∧
  length (instances s') = length (instances s) ∧
  (∀ i, i ≠ c → instances s' !! i = instances s !! i) ∧
  ∃ inst, instances s !! c = Some inst ∧ destroyed inst = false ∧
    instances s' !! c =
      Some (mkInstance
              (mkProps (tooltipText o)
                 (p_tooltipBodyComponent (props inst))
                 (p_tooltipBodyProps (props inst))
                 (p_x (props inst)) (p_y (props inst)))
              (target inst) false).
Proof.
  intros s s' Hh.
  assert (consistent s) as Hs by apply consistent_reachable.
  destruct (handle_mounted k s c Hs Hh) as (inst & Hi & Hd).
  apply handle_Some in Hh as (v & Hk & Hv).
  destruct (update_own k o s v Hk) as (Hk' & Hc' & _). fold s' in Hk', Hc'.
  rewrite Hv in Hc'.
  assert (instances s' =
          alter (patch_instance [set_tooltipText (tooltipText o)]) c (instances s))
    as Hins by (unfold s'; by rewrite (update_visible k o s v c)).
  split_and!.
  - apply handle_Some. by exists (with_content o v).
  - done.
  - by rewrite Hins, length_alter.
  - intros i Hi'. by rewrite Hins, list_lookup_alter_ne.
  - exists inst. split_and!; [done|done|].
    rewrite Hins, list_lookup_alter_eq, Hi. simpl.
    unfold patch_instance. simpl. by rewrite Hd.
Qed.

Lemma update_patches_label_only_witness :
  handle 0 (run initial [Attach 7 content_R1; Fire 7 mouseover]) = Some 0 ∧
  handle 0 (update 0 label_B_R2 (run initial [Attach 7 content_R1; Fire 7 mouseover]))
    = Some 0 ∧
  (λ i, (p_tooltipText (props i), p_tooltipBodyComponent (props i))) <$>
    instances (update 0 label_B_R2 (run initial [Attach 7 content_R1; Fire 7 mouseover]))
    = [(Some "B"%string, Some R1)].
Proof.
  pose proof (update_patches_label_only [Attach 7 content_R1; Fire 7 mouseover]
                0 0 label_B_R2 eq_refl) as (Hh & _ & Hlen & _ & inst & Hi & _ & Hi').
  split_and!; [reflexivity|exact Hh|].
  vm_compute in Hi. injection Hi as <-.
  destruct (instances _) as [|i [|i' l]]; try discriminate Hlen.
  simpl in Hi'. injection Hi' as ->. reflexivity.
Defined.

(** ** Mounting *)

Lemma mouseOver_mounts k s v :
  closures s !! k = Some v → tooltipComponent v = None →
  calls (mouseOver k s) =
    calls s ++
      [(k, call_getBoundingClientRect (element v));
       (k, call_new (length (instances s))
             (mount_props v (getBoundingClientRect k (element v) s).1) document_body)] ∧
  instances (mouseOver k s) =
    instances s ++
      [mkInstance (mount_props v (getBoundingClientRect k (element v) s).1)
         document_body false] ∧
  handle k (mouseOver k s) = Some (length (instances s)).
Proof.
  intros Hk Hv. rewrite (mouseOver_hidden k s v) by done. simpl.
  split_and!; [done|done|]. unfold handle. simpl.
  rewrite list_lookup_insert_eq by (by eapply lookup_lt_Some). done.
Qed.


Lemma degenerate_anchor r :
  degenerate r → (left r + width r / 2 == 0)%Q ∧ (bottom r == 0)%Q.
Proof.
  intros (Hl & Ht & Hw & Hh). unfold bottom, top, left in *.
  rewrite Q.min_l in Hl by lra. rewrite Q.min_l in Ht by lra.
  rewrite Q.max_r, Q.min_l by lra.
  split; [rewrite Hw, Hl; reflexivity|lra].
Qed.




(** The same happens with the fractional coordinates a transformed or
    zoomed layout produces: for left = 0.1 and width = 0.4 (the binary64
    numbers nearest to them) the exact centre lies halfway between two
    binary64 numbers, and the engine passes the upper one. *)
Example anchor_rounds_fraction :
  ∃ l w x : Q,
    value 0x1.999999999999ap-4%float = Some l ∧
    value 0x1.999999999999ap-2%float = Some w ∧
    value (anchor_binary64 0x1.999999999999ap-4 0x1.999999999999ap-2 0).1 = Some x ∧
    (l + w / 2 < x)%Q.
Proof.
  eexists _, _, _.
  split_and!; [vm_compute; reflexivity|vm_compute; reflexivity|vm_compute; reflexivity|].
  vm_compute. reflexivity.
Qed.



(** In the geometry scenario the engine computes the same anchor on the
    binary64 numbers: no step rounds. *)
Example anchor_scenario_binary64 :
  ∃ x y : Q,
    value (anchor_binary64 100 40 (PrimFloat.add 50 20)).1 = Some x ∧
    value (anchor_binary64 100 40 (PrimFloat.add 50 20)).2 = Some y ∧
    (x == 120)%Q ∧ (y == 70)%Q.
Proof.
  eexists _, _.
  split_and!; [vm_compute; reflexivity|vm_compute; reflexivity|reflexivity|reflexivity].
Qed.

(** C9: on a target whose bounding rectangle is all zero, as it is once the
    target is removed from the document, [mouseOver] still mounts an
    instance and stores its handle; the anchor it passes is (0, 0). *)
Theorem enter_on_detached_target k s v :
  let r := (getBoundingClientRect k (element v) s).1 in
  closures s !! k = Some v → tooltipComponent v = None → degenerate r →
  ∃ p,
    calls (mouseOver k s) =
      calls s ++ [(k, call_getBoundingClientRect (element v));
                  (k, call_new (length (instances s)) p document_body)] ∧
    instances (mouseOver k s) = instances s ++ [mkInstance p document_body false] ∧
    handle k (mouseOver k s) = Some (length (instances s)) ∧
    (p_x p == 0)%Q ∧ (p_y p == 0)%Q.
Proof.
  intros r Hk Hv Hdeg. destruct (mouseOver_mounts k s v Hk Hv) as (Hc & Hi & Hh).
  destruct (degenerate_anchor r Hdeg) as [Hx Hy].
  exists (mount_props v r). by split_and!.
Qed.

Lemma enter_on_detached_target_witness :
  layout (run initial [Reflow 7 target_rect; Attach 7 label_A; Disconnect 7]) !! 7 = None ∧
  degenerate
    (getBoundingClientRect 0 7
       (run initial [Reflow 7 target_rect; Attach 7 label_A; Disconnect 7])).1 ∧
  ∃ p,
    instances (mouseOver 0 (run initial [Reflow 7 target_rect; Attach 7 label_A;
                                         Disconnect 7]))
      = [mkInstance p document_body false] ∧
    handle 0 (mouseOver 0 (run initial [Reflow 7 target_rect; Attach 7 label_A;
                                        Disconnect 7])) = Some 0 ∧
    (p_x p == 0)%Q ∧ (p_y p == 0)%Q.
Proof.
  assert (degenerate
            (getBoundingClientRect 0 7
               (run initial [Reflow 7 target_rect; Attach 7 label_A; Disconnect 7])).1)
    as Hdeg by (by vm_compute).
  split_and!; [reflexivity|exact Hdeg|].
  destruct (enter_on_detached_target 0
              (run initial [Reflow 7 target_rect; Attach 7 label_A; Disconnect 7])
              (mkVars 7 None (Some "A"%string) None None) eq_refl eq_refl Hdeg)
    as (p & _ & Hi & Hh & Hx & Hy).
  exists p. by split_and!.
Defined.

Lemma mouseOver_prefix k s : instances s `prefix_of` instances (mouseOver k s).
Proof.
  closure_cases k s.
  - by rewrite (mouseOver_visible k s v c).
  - rewrite (mouseOver_hidden k s v) by done. simpl. by apply prefix_app_r.
  - by rewrite mouseOver_absent.
Qed.

Lemma invokes_mouseOver_prefix cbs s :
  Forall (λ cb, ∃ k, cb = cb_mouseOver k) cbs →
  instances s `prefix_of` instances (foldl invoke s cbs).
Proof.
  revert s. induction cbs as [|cb cbs IH]; intros s Hall; simpl; [done|].
  apply Forall_cons in Hall as [[k ->] Hall].
  etrans; [apply (mouseOver_prefix k)|]. by apply IH.
Qed.

Lemma handlers_mouseover s e :
  consistent s → Forall (λ cb, ∃ k, cb = cb_mouseOver k) (handlers e mouseover s).
Proof.
  intros Hs. apply Forall_forall. intros cb Hcb. apply elem_of_handlers in Hcb.
  destruct (listeners_wf s Hs _ Hcb) as (k & v & _ & [Hl|Hl]);
    unfold over_listener, leave_listener in Hl; simplify_eq. by exists k.
Qed.

(** C7: an enter event while the handle is set does nothing at all:
    [mouseOver] returns the state it was given (no constructor call, no
    geometry query, the handle and the instance as they were), and the
    whole dispatch leaves the closure, its calls and the mounted instance
    unchanged. *)
Theorem enter_while_visible_is_noop tr k v c :
  let s := run initial tr in
  closures s !! k = Some v → tooltipComponent v = Some c →
  mouseOver k s = s ∧
  closures (step s (Fire (element v) mouseover)) !! k = Some v ∧
  calls_by k (step s (Fire (element v) mouseover)) = calls_by k s ∧
  ∃ inst, destroyed inst = false ∧ instances s !! c = Some inst ∧
    instances (step s (Fire (element v) mouseover)) !! c = Some inst.
Proof.
  intros s Hk Hv.
  assert (consistent s) as Hs by apply consistent_reachable.
  split; [by eapply mouseOver_visible|].
  destruct (dispatchEvent_idle k v (element v) mouseover s Hs Hk) as [Hk' Hc'];
    [by right; left|].
  split_and!; [done|done|].
  destruct (handle_mounted k s c Hs) as (inst & Hi & Hd).
  { apply handle_Some. by exists v. }
  exists inst. split_and!; [done|done|].
  eapply prefix_lookup_Some; [exact Hi|].
  apply invokes_mouseOver_prefix, handlers_mouseover, Hs.
Qed.

Lemma enter_while_visible_is_noop_witness :
  closures (run initial [Attach 7 label_A; Fire 7 mouseover]) !! 0
    = Some (mkVars 7 (Some 0) (Some "A"%string) None None) ∧
  mouseOver 0 (run initial [Attach 7 label_A; Fire 7 mouseover])
    = run initial [Attach 7 label_A; Fire 7 mouseover] ∧
  calls_by 0 (run initial [Attach 7 label_A; Fire 7 mouseover; Fire 7 mouseover])
    = calls_by 0 (run initial [Attach 7 label_A; Fire 7 mouseover]).
Proof.
  destruct (enter_while_visible_is_noop [Attach 7 label_A; Fire 7 mouseover] 0
              (mkVars 7 (Some 0) (Some "A"%string) None None) 0 eq_refl eq_refl)
    as (H1 & _ & H3 & _).
  split_and!; [reflexivity|exact H1|exact H3].
Defined.

(** ** Detaching *)

Lemma removeEventListener_twice e1 ty1 cb1 e2 ty2 cb2 s :
  removeEventListener e2 ty2 cb2 (removeEventListener e1 ty1 cb1
    (removeEventListener e2 ty2 cb2 (removeEventListener e1 ty1 cb1 s))) =
  removeEventListener e2 ty2 cb2 (removeEventListener e1 ty1 cb1 s).
Proof.
  unfold removeEventListener, with_listeners. simpl. f_equal.
  rewrite !list_filter_filter. apply list_filter_iff. intros l. tauto.
Qed.

Lemma removeEventListener_closures e ty cb s :
  closures (removeEventListener e ty cb s) = closures s.
Proof. done. Qed.

Lemma removeEventListener_mouseLeave e ty cb k s :
  mouseLeave k (removeEventListener e ty cb s) =
  removeEventListener e ty cb (mouseLeave k s).
Proof.
  unfold mouseLeave. rewrite removeEventListener_closures.
  destruct (closures s !! k) as [v|]; [|done].
  by destruct (tooltipComponent v).
Qed.

Lemma mouseLeave_twice k s : mouseLeave k (mouseLeave k s) = mouseLeave k s.
Proof.
  destruct (closures s !! k) as [v|] eqn:Hk.
  - destruct (mouseLeave_own k s v Hk) as [Hk' _].
    by apply (mouseLeave_hidden k _ _ Hk').
  - rewrite (mouseLeave_absent k s Hk). by apply mouseLeave_absent.
Qed.

Lemma destroy_twice k s : destroy k (destroy k s) = destroy k s.
Proof.
  destruct (closures s !! k) as [v|] eqn:Hk.
  - destruct (mouseLeave_own k s v Hk) as [Hk' _].
    assert (destroy k s =
      removeEventListener (element v) mouseleave (cb_mouseLeave k)
        (removeEventListener (element v) mouseover (cb_mouseOver k) (mouseLeave k s)))
      as Hd by (unfold destroy; by rewrite Hk).
    rewrite Hd. unfold destroy at 1.
    rewrite !removeEventListener_closures, Hk'.
    change (element (with_tooltipComponent None v)) with (element v).
    rewrite !removeEventListener_mouseLeave, mouseLeave_twice.
    apply removeEventListener_twice.
  - assert (destroy k s = s) as -> by (unfold destroy; by rewrite Hk).
    unfold destroy. by rewrite Hk.
Qed.

Lemma registered_absent k s :
  consistent s → closures s !! k = None → registered k s = [].
Proof.
  intros Hs Hk. apply elem_of_nil_inv. intros l [Ho Hl]%elem_of_registered.
  destruct (listeners_wf s Hs l Hl) as (k' & w & Hw & [-> | ->]);
    simpl in Ho; congruence.
Qed.

Lemma destroy_news k s : consistent s → news k (destroy k s) = news k s.
Proof.
  intros Hs. destruct (closures s !! k) as [v|] eqn:Hk.
  - destruct (destroy_own k s v Hs Hk) as (_ & Hc & _). unfold news.
    rewrite Hc, omap_app. destruct (tooltipComponent v); by rewrite app_nil_r.
  - unfold destroy. by rewrite Hk.
Qed.

Lemma destroy_destroys k s :
  consistent s → destroys k (destroy k s) = destroys k s ++ option_list (handle k s).
Proof.
  intros Hs. unfold handle. destruct (closures s !! k) as [v|] eqn:Hk.
  - destruct (destroy_own k s v Hs Hk) as (_ & Hc & _). unfold destroys.
    rewrite Hc, omap_app. simpl. by destruct (tooltipComponent v).
  - unfold destroy. rewrite Hk. simpl. by rewrite app_nil_r.
Qed.

Lemma destroy_leaves_none_live k s :
  consistent s → live_instances k (destroy k s) = [].
Proof.
  intros Hs. destruct (closures s !! k) as [v|] eqn:Hk.
  - destruct (destroy_own k s v Hs Hk) as (Hk' & _).
    by rewrite (live_handle _ (consistent_destroy k s Hs) k _ Hk').
  - unfold destroy. rewrite Hk. unfold live_instances, news.
    rewrite (calls_closed s Hs k); [done|]. by apply lookup_ge_None_1.
Qed.

(** C6: detaching twice gives exactly the state that detaching once gives,
    trace of calls and store of instances included.  In that state the
    handle is unset, neither listener of the controller is registered and
    no instance of the controller is live: every instance it ever created
    is in the store and marked destroyed.  The first [destroy] calls
    [$destroy] once, on the instance the handle held, or not at all when
    the handle was unset; the second [destroy] calls it on nothing. *)
Theorem destroy_is_idempotent tr k :
  let s := run initial tr in
  destroy k (destroy k s) = destroy k s ∧
  calls (destroy k (destroy k s)) = calls (destroy k s) ∧
  handle k (destroy k s) = None ∧
  registered k (destroy k s) = [] ∧
  live_instances k (destroy k s) = [] ∧
  (∀ c, c ∈ news k s →
     ∃ inst, instances (destroy k s) !! c = Some inst ∧ destroyed inst = true) ∧
  destroys k (destroy k s) = destroys k s ++ option_list (handle k s) ∧
  destroys k (destroy k (destroy k s)) = destroys k s ++ option_list (handle k s) ∧
  instances (destroy k (destroy k s)) = instances (destroy k s).
Proof.
  intros s. assert (consistent s) as Hs by apply consistent_reachable.
  pose proof (consistent_destroy k s Hs) as Hs'.
  split_and!.
  - apply destroy_twice.
  - by rewrite destroy_twice.
  - destruct (closures s !! k) as [v|] eqn:Hk.
    + destruct (destroy_own k s v Hs Hk) as (Hk' & _). unfold handle.
      by rewrite Hk'.
    + assert (destroy k s = s) as -> by (unfold destroy; by rewrite Hk).
      unfold handle. by rewrite Hk.
  - destruct (closures s !! k) as [v|] eqn:Hk.
    + by destruct (destroy_own k s v Hs Hk) as (_ & _ & ?).
    + unfold destroy. rewrite Hk. by apply registered_absent.
  - by apply destroy_leaves_none_live.
  - intros c Hc. rewrite <- (destroy_news k s Hs) in Hc.
    pose proof (news_fresh _ Hs' k c Hc) as Hlt.
    apply lookup_lt_is_Some in Hlt as [inst Hi]. exists inst. split; [done|].
    assert (c ∉ live_instances k (destroy k s)) as Hnl.
    { rewrite (destroy_leaves_none_live k s Hs). apply not_elem_of_nil. }
    unfold live_instances in Hnl. rewrite list_elem_of_filter in Hnl.
    unfold live_in in Hnl. rewrite Hi in Hnl.
    destruct (destroyed inst); [done|]. exfalso. apply Hnl. by split.
  - by apply destroy_destroys.
  - rewrite destroy_twice. by apply destroy_destroys.
  - by rewrite destroy_twice.
Qed.

(** The scenario of a detach while the tooltip is shown: instance 0 was
    created by the controller; after the detach it is marked destroyed, and
    after a second detach the controller has called [$destroy] once. *)
Lemma destroy_is_idempotent_witness :
  0 ∈ news 0 (run initial [Attach 7 label_A; Fire 7 mouseover]) ∧
  (∃ inst,
     instances (destroy 0 (run initial [Attach 7 label_A; Fire 7 mouseover])) !! 0
       = Some inst ∧ destroyed inst = true) ∧
  destroys 0 (destroy 0 (destroy 0 (run initial [Attach 7 label_A; Fire 7 mouseover])))
    = [0].
Proof.
  assert (0 ∈ news 0 (run initial [Attach 7 label_A; Fire 7 mouseover])) as Hin
    by (vm_compute; left).
  destruct (destroy_is_idempotent [Attach 7 label_A; Fire 7 mouseover] 0)
    as (_ & _ & _ & _ & _ & Hd & _ & Hc & _).
  split_and!; [exact Hin|exact (Hd 0 Hin)|exact Hc].
Defined.

(** ** Detaching before any hover *)

Lemma step_quiet k e p s a :
  consistent s → in_phase k e p s →
  p = Unbound ∨ p = Hidden ∧ a ≠ Fire e mouseover →
  calls_by k (step s a) = calls_by k s ∧
  (phase_step k e p a = Unbound ∨
   phase_step k e p a = Hidden ∧ p = Hidden).
Proof.
  intros Hs Hp Hq. pose proof Hp as (v & Hk & He & Hp'). subst e.
  assert (tooltipComponent v = None) as Hv.
  { destruct Hq as [->|[-> _]]; by destruct Hp' as [? _]. }
  destruct (step_view k p s a v Hs Hk Hp) as (n & _ & _ & Hc).
  rewrite Hc. split.
  - destruct a as [e' o'|k' o'|k'|e' [|]|e' r'|e']; simpl;
      unfold teardown; rewrite ?Hv; try (case_decide; by rewrite app_nil_r);
      try by rewrite app_nil_r.
    rewrite decide_False, app_nil_r; [done|].
    intros [-> ->]. by destruct Hq as [?|[_ ?]].
  - destruct Hq as [->|[-> Ha]].
    + left. destruct a; simpl; try done; by case_decide.
    + destruct a as [e' o'|k' o'|k'|e' [|]|e' r'|e']; simpl; auto;
        case_decide; subst; auto. done.
Qed.

Lemma run_quiet k e tr p s :
  consistent s → in_phase k e p s →
  p = Unbound ∨ p = Hidden ∧ Forall (λ a, a ≠ Fire e mouseover) tr →
  calls_by k (run s tr) = calls_by k s ∧
  (phase_from k e p tr = Unbound ∨ phase_from k e p tr = Hidden).
Proof.
  revert p s. induction tr as [|a tr IH]; intros p s Hs Hp Hq.
  - simpl. split; [done|]. destruct Hq as [->|[-> _]]; auto.
  - change (run s (a :: tr)) with (run (step s a) tr).
    change (phase_from k e p (a :: tr)) with (phase_from k e (phase_step k e p a) tr).
    destruct (step_quiet k e p s a Hs Hp) as [Hc Hph].
    { destruct Hq as [->|[-> Hall]]; [by left|right].
      apply Forall_cons in Hall as [? _]. done. }
    destruct (IH (phase_step k e p a) (step s a)) as [Hc' Hph'].
    + by apply consistent_step.
    + by apply step_phase.
    + destruct Hph as [->|[-> ->]]; [by left|right]. split; [done|].
      destruct Hq as [?|[_ Hall]]; [done|]. by apply Forall_cons in Hall as [_ ?].
    + by rewrite Hc', Hc.
Qed.

(** C8: attaching mounts nothing and calls nothing, and as long as no
    enter event reaches its element the controller makes no call.  If it
    is then detached before any such event, it never calls the constructor
    (nor anything else), whatever happens afterwards; once detached, its
    handle is unset, none of its listeners is registered, and an event on
    the element changes neither its variables nor its calls. *)
Theorem detach_before_hover pre e o mid post :
  let s0 := run initial pre in
  let k := length (closures s0) in
  let s := run initial (pre ++ Attach e o :: mid ++ Detach k :: post) in
  Forall (λ a, a ≠ Fire e mouseover) mid →
  instances (step s0 (Attach e o)) = instances s0 ∧
  calls (step s0 (Attach e o)) = calls s0 ∧
  calls_by k (run initial (pre ++ Attach e o :: mid)) = [] ∧
  calls_by k s = [] ∧ news k s = [] ∧
  handle k s = None ∧ registered k s = [] ∧
  ∀ ty, closures (step s (Fire e ty)) !! k = closures s !! k ∧
        calls_by k (step s (Fire e ty)) = calls_by k s.
Proof.
  intros s0 k s Hmid.
  assert (consistent s0) as Hs0 by apply consistent_reachable.
  destruct (hoverTooltip_fields e o s0) as (_ & Hi & Hc & _).
  split; [exact Hi|]. split; [exact Hc|].
  destruct (hoverTooltip_own e o s0 Hs0) as [Hp1 Hc1]. fold k in Hp1, Hc1.
  set (s1 := (hoverTooltip e o s0).2) in *.
  assert (consistent s1) as Hs1 by (by apply consistent_hoverTooltip).
  assert (s = run (step (run s1 mid) (Detach k)) post) as ->.
  { unfold s. rewrite run_attach. fold s0 s1. by rewrite run_app. }
  destruct (run_quiet k e mid Hidden s1 Hs1 Hp1) as [Hc2 Hph2]; [by right|].
  pose proof (run_phase k e Hidden mid s1 Hs1 Hp1) as Hp2.
  set (s2 := run s1 mid) in *. set (p2 := phase_from k e Hidden mid) in *.
  assert (consistent s2) as Hs2 by (by apply consistent_run).
  destruct (step_quiet k e p2 s2 (Detach k) Hs2 Hp2) as [Hc3 _].
  { destruct Hph2 as [->| ->]; [by left|by right]. }
  pose proof (step_phase k e p2 s2 (Detach k) Hs2 Hp2) as Hp3.
  simpl in Hp3. rewrite decide_True in Hp3 by done.
  set (s3 := step s2 (Detach k)) in *.
  assert (consistent s3) as Hs3 by (by apply consistent_step).
  destruct (run_quiet k e post Unbound s3 Hs3 Hp3) as [Hc4 _]; [by left|].
  pose proof (run_phase k e Unbound post s3 Hs3 Hp3) as Hp4.
  rewrite phase_from_Unbound in Hp4.
  set (s4 := run s3 post) in *.
  assert (consistent s4) as Hs4 by (by apply consistent_run).
  assert (calls_by k s4 = []) as Hnil by (by rewrite Hc4, Hc3, Hc2).
  destruct Hp4 as (v & Hk & He & Hv & Hreg).
  split_and!.
  - rewrite run_attach. fold s0 s1 s2. by rewrite Hc2.
  - done.
  - unfold news. by rewrite Hnil.
  - unfold handle. by rewrite Hk.
  - done.
  - intros ty. rewrite Hk. apply dispatchEvent_idle; auto.
Qed.

Lemma detach_before_hover_witness :
  Forall (λ a, a ≠ Fire 7 mouseover) [Update 0 label_B; Fire 7 mouseleave] ∧
  calls_by 0 (run initial ([Reflow 7 target_rect] ++ Attach 7 label_A ::
                [Update 0 label_B; Fire 7 mouseleave] ++ Detach 0 ::
                [Fire 7 mouseover; Fire 7 mouseover; Update 0 label_A;
                 Fire 7 mouseover])) = [] ∧
  handle 0 (run initial ([Reflow 7 target_rect] ++ Attach 7 label_A ::
                [Update 0 label_B; Fire 7 mouseleave] ++ Detach 0 ::
                [Fire 7 mouseover; Fire 7 mouseover; Update 0 label_A;
                 Fire 7 mouseover])) = None.
Proof.
  assert (Forall (λ a, a ≠ Fire 7 mouseover) [Update 0 label_B; Fire 7 mouseleave])
    as Hmid by (repeat constructor; discriminate).
  destruct (detach_before_hover [Reflow 7 target_rect] 7 label_A
              [Update 0 label_B; Fire 7 mouseleave]
              [Fire 7 mouseover; Fire 7 mouseover; Update 0 label_A; Fire 7 mouseover]
              Hmid) as (_ & _ & _ & Hc & _ & Hh & _).
  split_and!; [exact Hmid|exact Hc|exact Hh].
Defined.

(** ** The mount parent *)

Lemma under_body_mouseOver k s : under_body s → under_body (mouseOver k s).
Proof.
  intros [Hi Hc]. closure_cases k s.
  - by rewrite (mouseOver_visible k s v c).
  - rewrite (mouseOver_hidden k s v) by done. split; simpl.
    + apply Forall_app. split; [done|]. by apply Forall_singleton.
    + apply Forall_app. split; [done|]. by repeat constructor.
  - by rewrite mouseOver_absent.
Qed.

Lemma under_body_mouseLeave k s : under_body s → under_body (mouseLeave k s).
Proof.
  intros [Hi Hc]. closure_cases k s.
  - rewrite (mouseLeave_visible k s v c) by done. split; simpl.
    + by apply Forall_alter.
    + apply Forall_app. split; [done|]. by repeat constructor.
  - by rewrite (mouseLeave_hidden k s v).
  - by rewrite mouseLeave_absent.
Qed.

Lemma under_body_update k o s : under_body s → under_body (update k o s).
Proof.
  intros [Hi Hc]. closure_cases k s.
  - rewrite (update_visible k o s v c) by done. split; simpl.
    + by apply Forall_alter.
    + apply Forall_app. split; [done|]. by repeat constructor.
  - by rewrite (update_hidden k o s v).
  - by rewrite update_absent.
Qed.

Lemma under_body_step s a : under_body s → under_body (step s a).
Proof.
  intros Hs. destruct a as [e o|k o|k|e ty|e r|e]; cbn [step].
  - destruct (hoverTooltip_fields e o s) as (_ & Hi & Hc & _).
    unfold under_body. by rewrite Hi, Hc.
  - by apply under_body_update.
  - unfold destroy. destruct (closures s !! k); [|done].
    by apply (under_body_mouseLeave k) in Hs.
  - unfold dispatchEvent. generalize (handlers e ty s). intros cbs.
    revert s Hs. induction cbs as [|cb cbs IH]; intros s Hs; simpl; [done|].
    apply IH. destruct cb; [by apply under_body_mouseOver|by apply under_body_mouseLeave].
  - done.
  - done.
Qed.

Lemma under_body_run tr s : under_body s → under_body (run s tr).
Proof.
  revert s. induction tr as [|a tr IH]; intros s Hs; simpl; [done|].
  by apply IH, under_body_step.
Qed.

(** C10: every instance there ever is was mounted under [document.body],
    and [document.body] is the parent in every constructor call of every
    controller, whatever element the controller is attached to. *)
Theorem mount_parent_is_document_body tr :
  let s := run initial tr in
  Forall (λ i, target i = document_body) (instances s) ∧
  ∀ k, Forall (λ m, m.2 = document_body) (mounts k s).
Proof.
  intros s. destruct (under_body_run tr initial) as [Hi Hc].
  { split; constructor. }
  split; [done|]. intros k. apply Forall_forall. intros [p t] Hm.
  apply list_elem_of_omap in Hm as (c & Hc' & Hm).
  apply list_elem_of_omap in Hc' as ([k' c'] & Hin & Hk).
  simpl in Hk. case_decide; [|done]. simplify_eq.
  rewrite Forall_forall in Hc. specialize (Hc _ Hin). simpl in Hc.
  destruct c; simpl in Hm; by simplify_eq.
Qed.

(** ** Scenarios *)

(** Attach with label A, enter, update to label B, leave, enter, leave:
    two instances, the first patched once, each destroyed before the next
    is created. *)
Example scenario_lifecycle :
  lifecycle 0
    (run initial [Attach 7 label_A; Fire 7 mouseover; Update 0 label_B;
                  Fire 7 mouseleave; Fire 7 mouseover; Fire 7 mouseleave])
  = [created 0; torn_down 0; created 1; torn_down 1].
Proof. reflexivity. Qed.

(** Two controllers on one element answer the same events, each with an
    instance of its own. *)
Example scenario_two_controllers :
  (λ s, (handle 0 s, handle 1 s, destroyed <$> instances s)) <$>
    [run initial [Attach 7 label_A; Attach 7 label_B; Fire 7 mouseover];
     run initial [Attach 7 label_A; Attach 7 label_B; Fire 7 mouseover; Detach 0];
     run initial [Attach 7 label_A; Attach 7 label_B; Fire 7 mouseover; Detach 0;
                  Fire 7 mouseleave; Fire 7 mouseover]]
  = [(Some 0, Some 1, [false; false]);
     (None, Some 1, [true; false]);
     (None, Some 2, [true; true; false])].
Proof. reflexivity. Qed.

(** The label the mounted instance shows follows [update]; its body
    component is the one it was mounted with. *)
Example scenario_patch :
  (λ i, (p_tooltipText (props i), p_tooltipBodyComponent (props i), destroyed i)) <$>
    instances (run initial [Attach 7 content_R1; Fire 7 mouseover; Update 0 label_B_R2])
  = [(Some "B"%string, Some R1, false)].
Proof. reflexivity. Qed.

(** * Further properties of the action *)

(** ** The calls of one closure come in sessions *)

Lemma next_vars_element k p v n a : element (next_vars k p v n a) = element v.
Proof.
  destruct a as [e o|k' o|k'|e [|]|e r|e]; simpl; try done; by case_decide.
Qed.

Lemma in_phase_handle k e p s v :
  closures s !! k = Some v → in_phase k e p s →
  match p with
  | Visible => is_Some (tooltipComponent v)
  | _ => tooltipComponent v = None
  end.
Proof.
  intros Hk (v' & Hk' & _ & Hp). assert (v' = v) as -> by congruence.
  destruct p; by destruct Hp as [? _].
Qed.

Lemma session_next k p v r n a :
  match p with
  | Visible => is_Some (tooltipComponent v)
  | _ => tooltipComponent v = None
  end →
  foldl (session_step (element v)) (Some (session_of (tooltipComponent v)))
    (next_calls k p v r n a)
  = Some (session_of (tooltipComponent (next_vars k p v n a))).
Proof.
  intros Hp.
  destruct a as [e o|k' o|k'|e [|]|e r'|e]; simpl; try done.
  - destruct (decide (k' = k)); [|done]. simpl.
    destruct (tooltipComponent v) as [c|]; [|done]. simpl. by rewrite decide_True.
  - destruct (decide (k' = k)); [|done]. unfold teardown. simpl.
    destruct (tooltipComponent v) as [c|]; [|done]. simpl. by rewrite decide_True.
  - destruct (decide (e = element v ∧ p = Hidden)) as [[_ ->]|]; [|done].
    rewrite Hp. simpl. by rewrite decide_True.
  - destruct (decide (e = element v)); [|done]. unfold teardown. simpl.
    destruct (tooltipComponent v) as [c|]; [|done]. simpl. by rewrite decide_True.
Qed.

Lemma run_sessions k tr : ∀ p s v,
  consistent s → closures s !! k = Some v → in_phase k (element v) p s →
  sessions (element v) (calls_by k s) = Some (session_of (tooltipComponent v)) →
  ∃ v', closures (run s tr) !! k = Some v' ∧ element v' = element v ∧
    sessions (element v) (calls_by k (run s tr))
    = Some (session_of (tooltipComponent v')).
Proof.
  induction tr as [|a tr IH]; intros p s v Hs Hk Hp Hses.
  - by exists v.
  - change (run s (a :: tr)) with (run (step s a) tr).
    destruct (step_view k p s a v Hs Hk Hp) as (n & _ & Hk' & Hc').
    pose proof (step_phase k (element v) p s a Hs Hp) as Hp'.
    set (v1 := next_vars k p v n a) in *.
    assert (element v1 = element v) as He1 by apply next_vars_element.
    destruct (IH (phase_step k (element v) p a) (step s a) v1) as (v' & Hk'' & He' & Hs').
    + by apply consistent_step.
    + done.
    + by rewrite He1.
    + rewrite He1. unfold sessions in *. rewrite Hc', foldl_app, Hses.
      apply session_next. by eapply in_phase_handle.
    + exists v'. rewrite He1 in He', Hs'. done.
Qed.

(** X1: the calls a controller makes, from attach on, always read as a
    sequence of sessions: one geometry query on its element, one
    construction under [document.body], label-only patches of that
    instance, one destruction of that instance; the last session is open
    exactly when the handle is set, and then it is the session of the
    instance the handle names. *)
Theorem calls_come_in_sessions pre e o post :
  let k := length (closures (run initial pre)) in
  let s := run initial (pre ++ Attach e o :: post) in
  sessions e (calls_by k s) = Some (session_of (handle k s)).
Proof.
  intros k s. subst s. rewrite run_attach. subst k.
  set (s0 := run initial pre).
  assert (consistent s0) as Hs0 by apply consistent_reachable.
  destruct (hoverTooltip_own e o s0 Hs0) as [Hph Hc].
  pose proof Hph as (v0 & Hk0 & He0 & Hv0 & _). subst e.
  destruct (run_sessions (length (closures s0)) post Hidden
              (hoverTooltip (element v0) o s0).2 v0)
    as (v' & Hk' & _ & Hs').
  - by apply consistent_hoverTooltip.
  - done.
  - done.
  - unfold sessions. by rewrite Hc, Hv0.
  - unfold handle. by rewrite Hk'.
Qed.

(** ** The calls of all closures respect the component *)

Lemma handle_distinct s k1 k2 c :
  consistent s → handle k1 s = Some c → handle k2 s = Some c → k1 = k2.
Proof.
  intros Hs (v1 & Hk1 & Hv1)%handle_Some (v2 & Hk2 & Hv2)%handle_Some.
  apply (news_owner s Hs k1 k2 c); apply live_instances_news.
  - rewrite (live_handle s Hs k1 v1 Hk1), Hv1. by left.
  - rewrite (live_handle s Hs k2 v2 Hk2), Hv2. by left.
Qed.

Lemma handle_insert k k0 v' ly ls ins cl cs :
  k0 < length cl →
  handle k (mkState ly ls ins (<[k0 := v']> cl) cs) =
    if decide (k = k0) then tooltipComponent v' else cl !! k ≫= tooltipComponent.
Proof.
  intros Hlt. unfold handle. simpl. case_decide as Hd.
  - subst. by rewrite list_lookup_insert_eq.
  - by rewrite list_lookup_insert_ne.
Qed.

Lemma replay_app cs l : replay (cs ++ l) = foldl replay_step (replay cs) l.
Proof. apply foldl_app. Qed.

Lemma replayed_same s s' :
  calls s' = calls s → (∀ k, handle k s' = handle k s) → replayed s → replayed s'.
Proof.
  intros Hc Hh (m & Hm & Hiff). exists m. rewrite Hc. split; [done|].
  intros c k. by rewrite Hh.
Qed.

Lemma replayed_mouseOver k0 s : consistent s → replayed s → replayed (mouseOver k0 s).
Proof.
  intros Hs Hr. closure_cases k0 s.
  - by rewrite (mouseOver_visible k0 s v c).
  - rewrite (mouseOver_hidden k0 s v) by done.
    destruct Hr as (m & Hm & Hiff).
    pose proof (lookup_lt_Some _ _ _ Hk) as Hlt.
    assert (m !! length (instances s) = None) as Hfresh.
    { destruct (m !! length (instances s)) as [k|] eqn:Hl; [|done].
      apply Hiff in Hl. destruct (handle_mounted k s _ Hs Hl) as (inst & Hi & _).
      apply lookup_lt_Some in Hi. lia. }
    exists (<[length (instances s) := k0]> m). split.
    + simpl. rewrite replay_app, Hm. simpl. by rewrite decide_True.
    + intros c k. rewrite handle_insert by done. case_decide as Hd.
      * subst k. simpl. destruct (decide (c = length (instances s))) as [->|Hne].
        -- by rewrite lookup_insert_eq.
        -- rewrite lookup_insert_ne by done. split; [|congruence].
           intros Hl. apply Hiff in Hl. unfold handle in Hl. rewrite Hk in Hl.
           simpl in Hl. congruence.
      * destruct (decide (c = length (instances s))) as [->|Hne].
        -- rewrite lookup_insert_eq. split; [congruence|].
           intros Hl. apply Hiff in Hl. congruence.
        -- rewrite lookup_insert_ne by done. apply Hiff.
  - by rewrite mouseOver_absent.
Qed.

Lemma replayed_mouseLeave k0 s : consistent s → replayed s → replayed (mouseLeave k0 s).
Proof.
  intros Hs Hr. closure_cases k0 s.
  - rewrite (mouseLeave_visible k0 s v c) by done.
    destruct Hr as (m & Hm & Hiff).
    pose proof (lookup_lt_Some _ _ _ Hk) as Hlt.
    assert (handle k0 s = Some c) as Hh by (apply handle_Some; by exists v).
    exists (delete c m). split.
    + simpl. rewrite replay_app, Hm. simpl. rewrite decide_True; [done|].
      by apply Hiff.
    + intros c' k. rewrite handle_insert by done. case_decide as Hd.
      * subst k. simpl. split; [|done]. intros Hl.
        apply lookup_delete_Some in Hl as [Hne Hl]. apply Hiff in Hl. congruence.
      * rewrite lookup_delete_Some. rewrite Hiff. split; [tauto|].
        intros Hh'. split; [|done]. intros ->. apply Hd.
        by eapply handle_distinct.
  - by rewrite (mouseLeave_hidden k0 s v).
  - by rewrite mouseLeave_absent.
Qed.

Lemma replayed_update k0 o s : consistent s → replayed s → replayed (update k0 o s).
Proof.
  intros Hs Hr. closure_cases k0 s.
  - rewrite (update_visible k0 o s v c) by done.
    destruct Hr as (m & Hm & Hiff).
    pose proof (lookup_lt_Some _ _ _ Hk) as Hlt.
    assert (handle k0 s = Some c) as Hh by (apply handle_Some; by exists v).
    exists m. split.
    + simpl. rewrite replay_app, Hm. simpl. rewrite decide_True; [done|].
      by apply Hiff.
    + intros c' k. rewrite handle_insert by done. case_decide as Hd; [|apply Hiff].
      subst k. simpl. rewrite Hiff, Hh, Hv. done.
  - rewrite (update_hidden k0 o s v) by done.
    pose proof (lookup_lt_Some _ _ _ Hk) as Hlt.
    apply (replayed_same s); [done| |done].
    intros k. rewrite handle_insert by done. case_decide as Hd; [|done].
    subst k. simpl. unfold handle. by rewrite Hk, Hv.
  - by rewrite update_absent.
Qed.

Lemma replayed_step s a : consistent s → replayed s → replayed (step s a).
Proof.
  intros Hs Hr. destruct a as [e o|k o|k|e ty|e r|e]; cbn [step].
  - destruct (hoverTooltip_fields e o s) as (_ & _ & Hc & _ & Hcl).
    apply (replayed_same s); [done| |done].
    intros k. unfold handle. rewrite Hcl.
    destruct (decide (k < length (closures s))) as [Hlt|Hge].
    + by rewrite lookup_app_l.
    + rewrite (lookup_ge_None_2 (closures s)) by lia.
      destruct (decide (k = length (closures s))) as [->|Hne].
      * by rewrite list_lookup_middle.
      * rewrite lookup_ge_None_2; [done|]. rewrite length_app. simpl. lia.
  - by apply replayed_update.
  - unfold destroy. destruct (closures s !! k); [|done].
    apply (replayed_same (mouseLeave k s)); [done|done|].
    by apply replayed_mouseLeave.
  - unfold dispatchEvent. generalize (handlers e ty s). intros cbs.
    revert s Hs Hr. induction cbs as [|cb cbs IH]; intros s Hs Hr; simpl; [done|].
    apply IH; [by apply consistent_invoke|].
    destruct cb; [by apply replayed_mouseOver|by apply replayed_mouseLeave].
  - done.
  - done.
Qed.

Lemma replayed_run tr s : consistent s → replayed s → replayed (run s tr).
Proof.
  revert s. induction tr as [|a tr IH]; intros s Hs Hr; simpl; [done|].
  apply IH; [by apply consistent_step|by apply replayed_step].
Qed.

(** X2: in the order they are made, the calls of all controllers use the
    component correctly: a constructed instance is patched and destroyed
    only while it is mounted and only by the controller that constructed
    it, so no instance is destroyed twice or patched after its destruction;
    and the instances left mounted are exactly the ones the handles of the
    controllers name. *)
Theorem calls_respect_the_component tr :
  let s := run initial tr in
  ∃ m, replay (calls s) = Some m ∧
    ∀ c k, m !! c = Some k ↔ handle k s = Some c.
Proof.
  intros s. apply replayed_run; [apply consistent_initial|].
  exists ∅. split; [done|]. intros c k. rewrite lookup_empty.
  unfold handle. simpl. split; done.
Qed.

(** ** Every instance is accounted for *)

Lemma all_news_extend ly ls ins cl s l :
  all_news (mkState ly ls ins cl (calls s ++ l)) =
  all_news s ++ omap (λ kc, new_id kc.2) l.
Proof. unfold all_news. simpl. apply omap_app. Qed.

Lemma numbered_mouseOver k s :
  all_news s = seq 0 (length (instances s)) →
  all_news (mouseOver k s) = seq 0 (length (instances (mouseOver k s))).
Proof.
  intros Hn. closure_cases k s.
  - by rewrite (mouseOver_visible k s v c).
  - rewrite (mouseOver_hidden k s v) by done.
    rewrite all_news_extend, Hn. simpl. rewrite length_app. simpl.
    rewrite Nat.add_1_r, seq_S. done.
  - by rewrite mouseOver_absent.
Qed.

Lemma numbered_mouseLeave k s :
  all_news s = seq 0 (length (instances s)) →
  all_news (mouseLeave k s) = seq 0 (length (instances (mouseLeave k s))).
Proof.
  intros Hn. closure_cases k s.
  - rewrite (mouseLeave_visible k s v c) by done.
    rewrite all_news_extend, Hn. simpl. by rewrite length_alter, app_nil_r.
  - by rewrite (mouseLeave_hidden k s v).
  - by rewrite mouseLeave_absent.
Qed.

Lemma numbered_update k o s :
  all_news s = seq 0 (length (instances s)) →
  all_news (update k o s) = seq 0 (length (instances (update k o s))).
Proof.
  intros Hn. closure_cases k s.
  - rewrite (update_visible k o s v c) by done.
    rewrite all_news_extend, Hn. simpl. by rewrite length_alter, app_nil_r.
  - by rewrite (update_hidden k o s v).
  - by rewrite update_absent.
Qed.

Lemma numbered_step s a :
  all_news s = seq 0 (length (instances s)) →
  all_news (step s a) = seq 0 (length (instances (step s a))).
Proof.
  intros Hn. destruct a as [e o|k o|k|e ty|e r|e]; cbn [step].
  - destruct (hoverTooltip_fields e o s) as (_ & Hi & Hc & _).
    unfold all_news. by rewrite Hi, Hc.
  - by apply numbered_update.
  - unfold destroy. destruct (closures s !! k); [|done].
    by apply (numbered_mouseLeave k) in Hn.
  - unfold dispatchEvent. generalize (handlers e ty s). intros cbs.
    revert s Hn. induction cbs as [|cb cbs IH]; intros s Hn; simpl; [done|].
    apply IH. destruct cb; [by apply numbered_mouseOver|by apply numbered_mouseLeave].
  - done.
  - done.
Qed.

Lemma numbered_run tr s :
  all_news s = seq 0 (length (instances s)) →
  all_news (run s tr) = seq 0 (length (instances (run s tr))).
Proof.
  revert s. induction tr as [|a tr IH]; intros s Hn; simpl; [done|].
  by apply IH, numbered_step.
Qed.

Lemma all_news_owner s i : i ∈ all_news s → ∃ k, i ∈ news k s.
Proof.
  unfold all_news. intros ([k c] & Hin & Hc)%list_elem_of_omap. simpl in Hc.
  exists k. unfold news, calls_by, calls_of.
  apply list_elem_of_omap. exists c. split; [|done].
  apply list_elem_of_omap. exists (k, c). split; [done|]. simpl.
  by rewrite decide_True.
Qed.

(** X3: no instance is orphaned.  An instance of the store is still
    mounted exactly when some controller holds it in its handle, and then
    exactly one controller does. *)
Theorem mounted_iff_held tr c inst :
  let s := run initial tr in
  instances s !! c = Some inst →
  (destroyed inst = false ↔ ∃ k, handle k s = Some c) ∧
  (∀ k1 k2, handle k1 s = Some c → handle k2 s = Some c → k1 = k2).
Proof.
  intros s Hi. assert (consistent s) as Hs by apply consistent_reachable.
  split; [split|].
  - intros Hd.
    assert (c ∈ all_news s) as Hin.
    { unfold s. rewrite numbered_run by done. apply elem_of_seq.
      apply lookup_lt_Some in Hi. fold s. lia. }
    destruct (all_news_owner s c Hin) as [k Hk]. exists k.
    destruct (closures s !! k) as [v|] eqn:Hcl.
    + assert (c ∈ live_instances k s) as Hlive.
      { apply list_elem_of_filter. split; [|done].
        unfold live_in. rewrite Hi, Hd. done. }
      rewrite (live_handle s Hs k v Hcl) in Hlive.
      apply handle_Some. exists v. split; [done|].
      destruct (tooltipComponent v) as [c'|]; simpl in Hlive.
      * apply list_elem_of_singleton in Hlive. by subst.
      * by apply elem_of_nil in Hlive.
    + apply lookup_ge_None_1 in Hcl. unfold news in Hk.
      rewrite (calls_closed s Hs k Hcl) in Hk. by apply elem_of_nil in Hk.
  - intros [k Hh]. destruct (handle_mounted k s c Hs Hh) as (inst' & Hi' & Hd).
    congruence.
  - intros k1 k2. by apply handle_distinct.
Qed.

Lemma mounted_iff_held_witness :
  instances (run initial [Attach 7 label_A; Attach 7 label_B; Fire 7 mouseover;
                          Detach 0]) !! 1
    = Some (mkInstance (mount_props (mkVars 7 None (Some "B"%string) None None)
                          zero_rect) document_body false) ∧
  ∃ k, handle k (run initial [Attach 7 label_A; Attach 7 label_B; Fire 7 mouseover;
                              Detach 0]) = Some 1.
Proof.
  split; [reflexivity|].
  destruct (mounted_iff_held
              [Attach 7 label_A; Attach 7 label_B; Fire 7 mouseover; Detach 0] 1
              (mkInstance (mount_props (mkVars 7 None (Some "B"%string) None None)
                             zero_rect) document_body false) eq_refl) as [[H _] _].
  by apply H.
Defined.

(** ** The mounted instance shows the current label *)

Lemma label_synced_mouseOver k0 s :
  consistent s → label_synced s → label_synced (mouseOver k0 s).
Proof.
  intros Hs Hl. closure_cases k0 s.
  - by rewrite (mouseOver_visible k0 s v c).
  - rewrite (mouseOver_hidden k0 s v) by done.
    pose proof (lookup_lt_Some _ _ _ Hk) as Hlt.
    intros k w c inst Hw Hc Hi. simpl in Hw, Hi.
    destruct (decide (k = k0)) as [->|Hne].
    + rewrite list_lookup_insert_eq in Hw by done. simplify_eq. simpl in *.
      simplify_eq. rewrite list_lookup_middle in Hi by done. by simplify_eq.
    + rewrite list_lookup_insert_ne in Hw by done.
      destruct (handle_mounted k s c Hs) as (inst' & Hi' & _).
      { apply handle_Some. by exists w. }
      rewrite (lookup_app_l_Some _ _ _ _ Hi') in Hi. simplify_eq.
      by eapply Hl.
  - by rewrite mouseOver_absent.
Qed.

Lemma label_synced_mouseLeave k0 s :
  label_synced s → label_synced (mouseLeave k0 s).
Proof.
  intros Hl. closure_cases k0 s.
  - rewrite (mouseLeave_visible k0 s v c) by done.
    pose proof (lookup_lt_Some _ _ _ Hk) as Hlt.
    intros k w c' inst Hw Hc Hi. simpl in Hw, Hi.
    destruct (decide (k = k0)) as [->|Hne].
    + rewrite list_lookup_insert_eq in Hw by done. by simplify_eq.
    + rewrite list_lookup_insert_ne in Hw by done.
      rewrite list_lookup_alter in Hi. case_decide; [|by eapply Hl].
      subst c'. destruct (instances s !! c) as [inst0|] eqn:Hi0; [|done].
      simpl in Hi. simplify_eq. simpl. by eapply Hl.
  - by rewrite (mouseLeave_hidden k0 s v).
  - by rewrite mouseLeave_absent.
Qed.

Lemma label_synced_update k0 o s :
  consistent s → label_synced s → label_synced (update k0 o s).
Proof.
  intros Hs Hl. closure_cases k0 s.
  - rewrite (update_visible k0 o s v c) by done.
    pose proof (lookup_lt_Some _ _ _ Hk) as Hlt.
    intros k w c' inst Hw Hc Hi. simpl in Hw, Hi.
    destruct (decide (k = k0)) as [->|Hne].
    + rewrite list_lookup_insert_eq in Hw by done. simplify_eq. simpl in *.
      assert (c' = c) as -> by congruence.
      rewrite list_lookup_alter_eq in Hi.
      destruct (instances s !! c) as [inst0|]; [|done].
      simpl in Hi. by simplify_eq.
    + rewrite list_lookup_insert_ne in Hw by done.
      assert (c ≠ c') as Hcc.
      { intros ->. apply Hne. apply (handle_distinct s k k0 c' Hs);
          apply handle_Some; eauto. }
      rewrite list_lookup_alter_ne in Hi by done. by eapply Hl.
  - rewrite (update_hidden k0 o s v) by done.
    pose proof (lookup_lt_Some _ _ _ Hk) as Hlt.
    intros k w c' inst Hw Hc Hi. simpl in Hw, Hi.
    destruct (decide (k = k0)) as [->|Hne].
    + rewrite list_lookup_insert_eq in Hw by done. simplify_eq. simpl in *.
      congruence.
    + rewrite list_lookup_insert_ne in Hw by done. by eapply Hl.
  - by rewrite update_absent.
Qed.

Lemma label_synced_step s a :
  consistent s → label_synced s → label_synced (step s a).
Proof.
  intros Hs Hl. destruct a as [e o|k o|k|e ty|e r|e]; cbn [step].
  - destruct (hoverTooltip_fields e o s) as (_ & Hi & _ & _ & Hcl).
    intros k w c inst Hw Hc Hin. rewrite Hi in Hin. rewrite Hcl in Hw.
    apply lookup_app_Some in Hw as [Hw|[_ Hw]]; [by eapply Hl|].
    apply list_lookup_singleton_Some in Hw as [_ <-]. done.
  - by apply label_synced_update.
  - unfold destroy. destruct (closures s !! k); [|done].
    by apply (label_synced_mouseLeave k) in Hl.
  - unfold dispatchEvent. generalize (handlers e ty s). intros cbs.
    revert s Hs Hl. induction cbs as [|cb cbs IH]; intros s Hs Hl; simpl; [done|].
    apply IH; [by apply consistent_invoke|].
    destruct cb; [by apply label_synced_mouseOver|by apply label_synced_mouseLeave].
  - done.
  - done.
Qed.

Lemma label_synced_run tr s :
  consistent s → label_synced s → label_synced (run s tr).
Proof.
  revert s. induction tr as [|a tr IH]; intros s Hs Hl; simpl; [done|].
  apply IH; [by apply consistent_step|by apply label_synced_step].
Qed.

(** X4: whatever happened before, the instance a controller has mounted is
    in the store, is not destroyed, and shows the label the controller
    currently holds, that is the label of its last [update], or of attach
    if there was none. *)
Theorem mounted_instance_shows_current_label tr k v c :
  let s := run initial tr in
  closures s !! k = Some v → tooltipComponent v = Some c →
  ∃ inst, instances s !! c = Some inst ∧ destroyed inst = false ∧
    p_tooltipText (props inst) = curTooltipText v.
Proof.
  intros s Hk Hv. assert (consistent s) as Hs by apply consistent_reachable.
  destruct (handle_mounted k s c Hs) as (inst & Hi & Hd).
  { apply handle_Some. by exists v. }
  exists inst. split_and!; [done|done|].
  eapply (label_synced_run tr initial consistent_initial); [|exact Hk|exact Hv|exact Hi].
  intros k' w c' inst' Hw. done.
Qed.

Lemma mounted_instance_shows_current_label_witness :
  closures (run initial [Attach 7 label_A; Fire 7 mouseover; Update 0 label_B;
                         Fire 7 mouseover]) !! 0
    = Some (mkVars 7 (Some 0) (Some "B"%string) None None) ∧
  ∃ inst,
    instances (run initial [Attach 7 label_A; Fire 7 mouseover; Update 0 label_B;
                            Fire 7 mouseover]) !! 0 = Some inst ∧
    p_tooltipText (props inst) = Some "B"%string.
Proof.
  split; [reflexivity|].
  destruct (mounted_instance_shows_current_label
              [Attach 7 label_A; Fire 7 mouseover; Update 0 label_B; Fire 7 mouseover]
              0 (mkVars 7 (Some 0) (Some "B"%string) None None) 0 eq_refl eq_refl)
    as (inst & Hi & _ & Hl).
  by exists inst.
Defined.

(** ** What an instance keeps *)

Lemma keeps_refl i : keeps i i.
Proof. by repeat split. Qed.

Lemma store_keeps_refl l : store_keeps l l.
Proof. intros c i Hi. exists i. split; [done|apply keeps_refl]. Qed.

Lemma store_keeps_trans l1 l2 l3 :
  store_keeps l1 l2 → store_keeps l2 l3 → store_keeps l1 l3.
Proof.
  intros H12 H23 c i Hi.
  destruct (H12 c i Hi) as (i2 & Hi2 & (A1 & A2 & A3 & A4 & A5 & A6)).
  destruct (H23 c i2 Hi2) as (i3 & Hi3 & (B1 & B2 & B3 & B4 & B5 & B6)).
  exists i3. split; [done|]. repeat split; try congruence. auto.
Qed.

Lemma store_keeps_alter f l c0 :
  (∀ i, keeps i (f i)) → store_keeps l (alter f c0 l).
Proof.
  intros Hf c i Hi. rewrite list_lookup_alter. case_decide.
  - subst. rewrite Hi. simpl. eauto.
  - exists i. split; [done|apply keeps_refl].
Qed.

Lemma store_keeps_mouseOver k s : store_keeps (instances s) (instances (mouseOver k s)).
Proof.
  closure_cases k s.
  - rewrite (mouseOver_visible k s v c) by done. apply store_keeps_refl.
  - rewrite (mouseOver_hidden k s v) by done. simpl. intros c i Hi.
    exists i. split; [by apply lookup_app_l_Some|apply keeps_refl].
  - rewrite mouseOver_absent by done. apply store_keeps_refl.
Qed.

Lemma store_keeps_mouseLeave k s : store_keeps (instances s) (instances (mouseLeave k s)).
Proof.
  closure_cases k s.
  - rewrite (mouseLeave_visible k s v c) by done. simpl.
    apply store_keeps_alter. intros i. by repeat split.
  - rewrite (mouseLeave_hidden k s v) by done. apply store_keeps_refl.
  - rewrite mouseLeave_absent by done. apply store_keeps_refl.
Qed.

Lemma store_keeps_update k o s : store_keeps (instances s) (instances (update k o s)).
Proof.
  closure_cases k s.
  - rewrite (update_visible k o s v c) by done. simpl.
    apply store_keeps_alter. intros i. by repeat split.
  - rewrite (update_hidden k o s v) by done. apply store_keeps_refl.
  - rewrite update_absent by done. apply store_keeps_refl.
Qed.

Lemma store_keeps_step s a : store_keeps (instances s) (instances (step s a)).
Proof.
  destruct a as [e o|k o|k|e ty|e r|e]; cbn [step].
  - destruct (hoverTooltip_fields e o s) as (_ & -> & _). apply store_keeps_refl.
  - apply store_keeps_update.
  - unfold destroy. destruct (closures s !! k); [|apply store_keeps_refl].
    apply store_keeps_mouseLeave.
  - unfold dispatchEvent. generalize (handlers e ty s). intros cbs.
    revert s. induction cbs as [|cb cbs IH]; intros s; simpl; [apply store_keeps_refl|].
    eapply store_keeps_trans; [|apply IH].
    destruct cb; [apply store_keeps_mouseOver|apply store_keeps_mouseLeave].
  - apply store_keeps_refl.
  - apply store_keeps_refl.
Qed.

Lemma store_keeps_run tr s : store_keeps (instances s) (instances (run s tr)).
Proof.
  revert s. induction tr as [|a tr IH]; intros s; simpl; [apply store_keeps_refl|].
  eapply store_keeps_trans; [apply store_keeps_step|apply IH].
Qed.

(** X5: once an instance is constructed, nothing the action does changes
    its body component, its body props, its anchor or its parent, and a
    destroyed instance is never mounted again: the tooltip does not follow
    its target when the target moves, and [update] never reaches the body
    of a mounted tooltip. *)
Theorem instance_keeps_body_and_anchor tr post c i :
  instances (run initial tr) !! c = Some i →
  ∃ i', instances (run (run initial tr) post) !! c = Some i' ∧
    p_tooltipBodyComponent (props i') = p_tooltipBodyComponent (props i) ∧
    p_tooltipBodyProps (props i') = p_tooltipBodyProps (props i) ∧
    p_x (props i') = p_x (props i) ∧
    p_y (props i') = p_y (props i) ∧
    target i' = target i ∧
    (destroyed i = true → destroyed i' = true).
Proof. apply store_keeps_run. Qed.

Lemma instance_keeps_body_and_anchor_witness :
  instances (run initial [Reflow 7 target_rect; Attach 7 content_R1; Fire 7 mouseover])
    !! 0
    = Some (mkInstance (mount_props (mkVars 7 None (Some "A"%string) (Some R1)
                                       (Some {[ "x"%string := js_number 1 ]}))
                          target_rect) document_body false) ∧
  ∃ i',
    instances (run (run initial [Reflow 7 target_rect; Attach 7 content_R1;
                                 Fire 7 mouseover])
                 [Reflow 7 zero_rect; Update 0 label_B_R2; Fire 7 mouseover]) !! 0
      = Some i' ∧
    p_tooltipBodyComponent (props i') = Some R1 ∧
    (p_x (props i') == 120)%Q ∧ (p_y (props i') == 70)%Q.
Proof.
  split; [reflexivity|].
  destruct (instance_keeps_body_and_anchor
              [Reflow 7 target_rect; Attach 7 content_R1; Fire 7 mouseover]
              [Reflow 7 zero_rect; Update 0 label_B_R2; Fire 7 mouseover] 0 _ eq_refl)
    as (i' & Hi & Hb & _ & Hx & Hy & _).
  exists i'. split_and!; [exact Hi|exact Hb| |].
  - rewrite Hx. reflexivity.
  - rewrite Hy. reflexivity.
Defined.

(** ** The listeners of a controller *)

Lemma filter_all {A} (P : A → Prop) `{!∀ x, Decision (P x)} (l : list A) :
  Forall P l → filter P l = l.
Proof.
  induction 1 as [|x l Hx Hl IH]; [done|].
  by rewrite filter_cons, decide_True, IH.
Qed.

Lemma listener_fresh s l :
  consistent s → length (closures s) ≤ owner (l_callback l) → l ∉ listeners s.
Proof.
  intros Hs Hge Hl. destruct (listeners_wf s Hs l Hl) as (k & v & Hk & Hc).
  apply lookup_lt_Some in Hk. destruct Hc as [-> | ->]; simpl in Hge; lia.
Qed.

Lemma hoverTooltip_listeners e o s :
  consistent s →
  listeners (hoverTooltip e o s).2 =
    listeners s ++ [mkListener e mouseover (cb_mouseOver (length (closures s)));
                    mkListener e mouseleave (cb_mouseLeave (length (closures s)))].
Proof.
  intros Hs. unfold hoverTooltip. cbn [snd].
  set (k := length (closures s)).
  set (s1 := with_closures _ s).
  assert (mkListener e mouseover (cb_mouseOver k) ∉ listeners s1) as H1.
  { change (listeners s1) with (listeners s). apply listener_fresh; [done|simpl; lia]. }
  unfold addEventListener at 2. rewrite decide_False by done.
  unfold addEventListener. rewrite decide_False.
  - simpl. by rewrite <- app_assoc.
  - simpl. intros [Hin|Hin%list_elem_of_singleton]%elem_of_app; [|done].
    revert Hin. apply listener_fresh; [done|simpl; lia].
Qed.

Lemma step_registered k v s a :
  consistent s → closures s !! k = Some v → a ≠ Detach k →
  registered k (step s a) = registered k s.
Proof.
  intros Hs Hk Ha. destruct (decide (concerns k (element v) a)) as [Hc|Hc].
  - destruct a as [e o|k' o|k'|e ty|e r|e]; simpl in Hc; try done; subst.
    + destruct (update_own k o s v Hk) as (_ & _ & Hl).
      unfold registered. simpl. by rewrite Hl.
    + done.
    + apply dispatchEvent_registered.
  - by destruct (step_untouched k v s a Hs Hk Hc) as (_ & _ & ?).
Qed.

Lemma listeners_in_step k e p a :
  a ≠ Detach k → listeners_in k e (phase_step k e p a) = listeners_in k e p.
Proof.
  intros Ha. destruct a as [e' o|k' o|k'|e' ty|e' r|e']; simpl; try done.
  - case_decide; [congruence|done].
  - case_decide; [|done]. by destruct p, ty.
Qed.

Lemma run_registered k e tr : ∀ p s,
  consistent s → in_phase k e p s → registered k s = listeners_in k e p →
  registered k (run s tr) = listeners_in k e (phase_from k e p tr).
Proof.
  induction tr as [|a tr IH]; intros p s Hs Hp Hr; [done|].
  change (run s (a :: tr)) with (run (step s a) tr).
  change (phase_from k e p (a :: tr)) with (phase_from k e (phase_step k e p a) tr).
  apply IH; [by apply consistent_step|by apply step_phase|].
  pose proof Hp as (v & Hk & He & _).
  destruct (decide (a = Detach k)) as [->|Ha].
  - destruct (destroy_own k s v Hs Hk) as (_ & _ & Hnil).
    simpl. by rewrite decide_True.
  - rewrite (step_registered k v s a) by done. by rewrite listeners_in_step.
Qed.

(** X6: a controller leaks no listener.  From attach to detach exactly
    its two listeners are registered, [mouseover] and [mouseleave] on its
    element, once each; from detach on none is, whatever else happens. *)
Theorem controller_listeners_are_exact pre e o post :
  let k := length (closures (run initial pre)) in
  let s := run initial (pre ++ Attach e o :: post) in
  registered k s = listeners_in k e (phase_from k e Hidden post) ∧
  (phase_from k e Hidden post = Unbound ↔ Detach k ∈ post).
Proof.
  intros k s. subst s. rewrite run_attach. subst k.
  set (s0 := run initial pre).
  assert (consistent s0) as Hs0 by apply consistent_reachable.
  destruct (hoverTooltip_own e o s0 Hs0) as [Hph _].
  split.
  - apply run_registered; [by apply consistent_hoverTooltip|done|].
    unfold registered. rewrite hoverTooltip_listeners by done.
    rewrite filter_app. simpl.
    assert (filter (λ l, owner (l_callback l) = length (closures s0)) (listeners s0) = [])
      as ->.
    { apply (registered_absent _ s0 Hs0). by apply lookup_ge_None_2. }
    simpl. rewrite filter_cons, decide_True by done.
    rewrite filter_cons, decide_True by done. done.
  - generalize (length (closures s0)). intros k. clear.
    assert (∀ p, phase_from k e p post = Unbound ↔ p = Unbound ∨ Detach k ∈ post) as H.
    { induction post as [|a post IH]; intros p.
      - simpl. rewrite elem_of_nil. tauto.
      - change (phase_from k e p (a :: post))
          with (phase_from k e (phase_step k e p a) post).
        rewrite IH, elem_of_cons.
        destruct a as [e' o|k' o|k'|e' ty|e' r|e']; simpl;
          try (split; intros [?|?]; auto; destruct H as [?|?]; auto; done).
        + case_decide; subst; [tauto|].
          split; intros [?|?]; auto. destruct H0 as [?|?]; auto. congruence.
        + case_decide; [|split; intros [?|?]; auto; destruct H0 as [?|?]; auto; done].
          destruct p, ty; split; intros [?|?]; auto; try done;
            destruct H0 as [?|?]; auto; done. }
    rewrite H. split; [intros [?|?]; [done|auto]|auto].
Qed.

(** X7: attaching a controller and detaching it at once leaves the page
    as it was: the same listeners in the same order, the same instances,
    the same calls, the same layout.  Only the variables of the dead
    closure remain. *)
Theorem attach_then_detach_restores tr e o :
  let s := run initial tr in
  let s' := destroy (hoverTooltip e o s).1 (hoverTooltip e o s).2 in
  listeners s' = listeners s ∧ instances s' = instances s ∧
  calls s' = calls s ∧ layout s' = layout s ∧
  closures s' =
    closures s ++
      [mkVars e None (tooltipText o) (tooltipBodyComponent o) (tooltipBodyProps o)].
Proof.
  intros s s'. assert (consistent s) as Hs by apply consistent_reachable.
  destruct (hoverTooltip_fields e o s) as (Hk & Hi & Hc & Hy & Hcl).
  set (v0 := mkVars e None (tooltipText o) (tooltipBodyComponent o) (tooltipBodyProps o))
    in *.
  assert (closures (hoverTooltip e o s).2 !! length (closures s) = Some v0) as Hk0
    by (by rewrite Hcl, list_lookup_middle).
  assert (s' =
    removeEventListener e mouseleave (cb_mouseLeave (length (closures s)))
      (removeEventListener e mouseover (cb_mouseOver (length (closures s)))
         (hoverTooltip e o s).2)) as ->.
  { unfold s', destroy. rewrite Hk, Hk0.
    by rewrite (mouseLeave_hidden _ _ v0 Hk0). }
  split_and!; [|done..].
  unfold removeEventListener, with_listeners. cbn [listeners].
  rewrite hoverTooltip_listeners by done.
  rewrite !filter_app.
  assert (∀ cb, length (closures s) ≤ owner cb → ∀ ty,
            filter (λ l, l ≠ mkListener e ty cb) (listeners s) = listeners s) as Hkeep.
  { intros cb Hcb ty. apply filter_all, Forall_forall. intros l Hl ->.
    by apply (listener_fresh s (mkListener e ty cb) Hs Hcb). }
  rewrite !filter_cons.
  rewrite (decide_False (P := _ ≠ _)) by (intros H; by apply H).
  rewrite (decide_True (P := _ ≠ _)) by done.
  rewrite filter_cons, (decide_False (P := _ ≠ _)) by (intros H; by apply H).
  rewrite !filter_nil, app_nil_r.
  rewrite (Hkeep (cb_mouseOver _)) by (simpl; lia).
  by rewrite (Hkeep (cb_mouseLeave _)) by (simpl; lia).
Qed.

(** X8: [destroy] is final.  From its detach on a controller makes no
    call at all, whatever happens on the page, later [update]s and events
    on its element included: it never mounts again, its handle stays unset
    and none of its listeners is registered. *)
Theorem destroy_is_final pre e o mid post :
  let k := length (closures (run initial pre)) in
  let s1 := run initial (pre ++ Attach e o :: mid ++ [Detach k]) in
  let s2 := run s1 post in
  calls_by k s2 = calls_by k s1 ∧ mounts k s2 = mounts k s1 ∧
  handle k s2 = None ∧ registered k s2 = [].
Proof.
  intros k s1 s2.
  set (s0 := run initial pre).
  assert (consistent s0) as Hs0 by apply consistent_reachable.
  destruct (hoverTooltip_own e o s0 Hs0) as [Hp0 _]. fold k in Hp0.
  assert (consistent (hoverTooltip e o s0).2) as Hsa
    by (by apply consistent_hoverTooltip).
  assert (s1 = step (run (hoverTooltip e o s0).2 mid) (Detach k)) as Hs1.
  { unfold s1. rewrite run_attach. fold s0. by rewrite run_app. }
  pose proof (run_phase k e Hidden mid _ Hsa Hp0) as Hpm.
  assert (consistent (run (hoverTooltip e o s0).2 mid)) as Hsm by (by apply consistent_run).
  pose proof (step_phase k e _ _ (Detach k) Hsm Hpm) as Hp1.
  cbn [phase_step] in Hp1. rewrite decide_True in Hp1 by done. rewrite <- Hs1 in Hp1.
  assert (consistent s1) as Hc1 by apply consistent_reachable.
  destruct (run_quiet k e post Unbound s1 Hc1 Hp1) as [Hq _]; [by left|].
  pose proof (run_phase k e Unbound post s1 Hc1 Hp1) as Hp2.
  rewrite phase_from_Unbound in Hp2. destruct Hp2 as (v & Hk & _ & Hv & Hreg).
  fold s2 in Hq, Hk, Hreg. split_and!; [done| |by unfold handle; rewrite Hk|done].
  unfold mounts. by rewrite Hq.
Qed.

(** ** Controllers do not interfere *)

Lemma mouseOver_keeps_instance k0 s c :
  c < length (instances s) → instances (mouseOver k0 s) !! c = instances s !! c.
Proof.
  intros Hc. closure_cases k0 s.
  - by rewrite (mouseOver_visible k0 s v c0).
  - rewrite (mouseOver_hidden k0 s v) by done. simpl. by apply lookup_app_l.
  - by rewrite mouseOver_absent.
Qed.

Lemma mouseLeave_keeps_instance k0 k s c :
  consistent s → k0 ≠ k → handle k s = Some c →
  instances (mouseLeave k0 s) !! c = instances s !! c.
Proof.
  intros Hs Hne Hh. closure_cases k0 s.
  - rewrite (mouseLeave_visible k0 s v c0) by done. simpl.
    apply list_lookup_alter_ne. intros ->. apply Hne.
    apply (handle_distinct s k0 k c Hs); [|done]. apply handle_Some. eauto.
  - by rewrite (mouseLeave_hidden k0 s v).
  - by rewrite mouseLeave_absent.
Qed.

Lemma update_keeps_instance k0 k o s c :
  consistent s → k0 ≠ k → handle k s = Some c →
  instances (update k0 o s) !! c = instances s !! c.
Proof.
  intros Hs Hne Hh. closure_cases k0 s.
  - rewrite (update_visible k0 o s v c0) by done. simpl.
    apply list_lookup_alter_ne. intros ->. apply Hne.
    apply (handle_distinct s k0 k c Hs); [|done]. apply handle_Some. eauto.
  - by rewrite (update_hidden k0 o s v).
  - by rewrite update_absent.
Qed.

Lemma invokes_keep_instance k c cbs : ∀ s,
  consistent s → handle k s = Some c → Forall (λ cb, owner cb ≠ k) cbs →
  instances (foldl invoke s cbs) !! c = instances s !! c.
Proof.
  induction cbs as [|cb cbs IH]; intros s Hs Hh Hall; simpl; [done|].
  apply Forall_cons in Hall as [Hcb Hall].
  destruct (invoke_other k s cb Hcb) as [Hk' _].
  rewrite IH; [|by apply consistent_invoke|by unfold handle; rewrite Hk'|done].
  destruct cb as [k0|k0]; simpl in *.
  - apply mouseOver_keeps_instance.
    destruct (handle_mounted k s c Hs Hh) as (inst & Hi & _).
    by eapply lookup_lt_Some.
  - by eapply mouseLeave_keeps_instance.
Qed.

(** X9: controllers are independent.  A call of the interface of the action
    that is not made on the controller (attaching a controller, updating or
    detaching another one) and a change of layout leave the variables of
    the controller, its calls, its listeners and the instance it has
    mounted exactly as they were; and so does every run of listeners of
    other controllers, on whatever element they are registered and in
    whatever order they are called. *)
Theorem other_controllers_leave_controller_alone tr k v :
  let s := run initial tr in
  closures s !! k = Some v →
  (∀ a, elsewhere k a →
     closures (step s a) !! k = Some v ∧
     calls_by k (step s a) = calls_by k s ∧
     registered k (step s a) = registered k s ∧
     ∀ c, tooltipComponent v = Some c → instances (step s a) !! c = instances s !! c) ∧
  (∀ cbs, Forall (λ cb, owner cb ≠ k) cbs →
     closures (foldl invoke s cbs) !! k = Some v ∧
     calls_by k (foldl invoke s cbs) = calls_by k s ∧
     registered k (foldl invoke s cbs) = registered k s ∧
     ∀ c, tooltipComponent v = Some c →
       instances (foldl invoke s cbs) !! c = instances s !! c).
Proof.
  intros s Hk. assert (consistent s) as Hs by apply consistent_reachable.
  split.
  - intros a Ha.
    assert (¬ concerns k (element v) a) as Hn by (destruct a; simpl in *; tauto).
    destruct (step_untouched k v s a Hs Hk Hn) as (Hk' & Hc' & Hr').
    split_and!; [by rewrite Hk'|done|done|].
    intros c Hv. assert (handle k s = Some c) as Hh by (apply handle_Some; eauto).
    destruct a as [e o|k' o|k'|e ty|e r|e]; cbn [step]; simpl in Ha.
    + by destruct (hoverTooltip_fields e o s) as (_ & -> & _).
    + by apply (update_keeps_instance k' k).
    + unfold destroy. destruct (closures s !! k'); [|done]. simpl.
      by apply (mouseLeave_keeps_instance k' k).
    + done.
    + done.
    + done.
  - intros cbs Hall. destruct (invokes_other k cbs s Hall) as [Hk' Hc'].
    split_and!; [by rewrite Hk'|done|apply registered_steady, steady_invokes|].
    intros c Hv. apply (invokes_keep_instance k); [done| |done].
    apply handle_Some. eauto.
Qed.

(** Two controllers, the first showing its tooltip: detaching the second,
    or running the listeners of the second, changes nothing of the first. *)
Lemma other_controllers_leave_controller_alone_witness :
  closures (run initial [Attach 7 label_A; Attach 8 label_B; Fire 7 mouseover]) !! 0
    = Some (mkVars 7 (Some 0) (Some "A"%string) None None) ∧
  elsewhere 0 (Detach 1) ∧
  Forall (λ cb, owner cb ≠ 0) [cb_mouseOver 1; cb_mouseLeave 1] ∧
  calls_by 0 (run initial [Attach 7 label_A; Attach 8 label_B; Fire 7 mouseover;
                           Detach 1])
    = calls_by 0 (run initial [Attach 7 label_A; Attach 8 label_B; Fire 7 mouseover]) ∧
  instances (foldl invoke
               (run initial [Attach 7 label_A; Attach 8 label_B; Fire 7 mouseover])
               [cb_mouseOver 1; cb_mouseLeave 1]) !! 0
    = instances (run initial [Attach 7 label_A; Attach 8 label_B; Fire 7 mouseover]) !! 0.
Proof.
  assert (elsewhere 0 (Detach 1)) as Ha by (simpl; lia).
  assert (Forall (λ cb, owner cb ≠ 0) [cb_mouseOver 1; cb_mouseLeave 1]) as Hcbs
    by (repeat constructor; simpl; lia).
  destruct (other_controllers_leave_controller_alone
              [Attach 7 label_A; Attach 8 label_B; Fire 7 mouseover] 0
              (mkVars 7 (Some 0) (Some "A"%string) None None) eq_refl) as [H1 H2].
  destruct (H1 (Detach 1) Ha) as (_ & Hc & _).
  destruct (H2 _ Hcbs) as (_ & _ & _ & Hi).
  split_and!; [reflexivity|exact Ha|exact Hcbs|exact Hc|exact (Hi 0 eq_refl)].
Defined.

(** ** Updating twice *)

(** X10: of two [update]s in a row the last one wins: the controller
    holds the content of the second, and the mounted instance, if there is
    one, shows the label of the second, as if the first had not been
    made.  Only the trace tells them apart: the first patch was sent. *)
Theorem update_last_writer_wins s k o1 o2 :
  closures (update k o2 (update k o1 s)) = closures (update k o2 s) ∧
  instances (update k o2 (update k o1 s)) = instances (update k o2 s) ∧
  listeners (update k o2 (update k o1 s)) = listeners (update k o2 s) ∧
  layout (update k o2 (update k o1 s)) = layout (update k o2 s).
Proof.
  closure_cases k s.
  - pose proof (lookup_lt_Some _ _ _ Hk) as Hlt.
    destruct (update_own k o1 s v Hk) as (Hk1 & _).
    rewrite (update_visible k o2 (update k o1 s) (with_content o1 v) c) by done.
    rewrite (update_visible k o2 s v c) by done.
    rewrite (update_visible k o1 s v c) by done. simpl.
    split_and!; [|  |done|done].
    + by rewrite list_insert_insert_eq.
    + rewrite list_alter_alter_eq. by apply list_alter_ext.
  - pose proof (lookup_lt_Some _ _ _ Hk) as Hlt.
    destruct (update_own k o1 s v Hk) as (Hk1 & _).
    rewrite (update_hidden k o2 (update k o1 s) (with_content o1 v)) by done.
    rewrite (update_hidden k o2 s v) by done.
    rewrite (update_hidden k o1 s v) by done. simpl.
    split_and!; [|done..]. by rewrite list_insert_insert_eq.
  - by rewrite !(update_absent k _ s Hk).
Qed.

(** ** Detaching while visible *)

(** X11: detaching a controller that has an instance mounted destroys
    that instance, with a single [$destroy] call; detaching a hidden one
    calls nothing. *)
Theorem detach_tears_down_the_mounted_instance tr k v :
  let s := run initial tr in
  closures s !! k = Some v →
  handle k (destroy k s) = None ∧
  calls_by k (destroy k s) = calls_by k s ++ teardown v ∧
  ∀ c, tooltipComponent v = Some c →
    ∃ inst, instances s !! c = Some inst ∧ destroyed inst = false ∧
      instances (destroy k s) !! c = Some (mark_destroyed inst).
Proof.
  intros s Hk. assert (consistent s) as Hs by apply consistent_reachable.
  destruct (destroy_own k s v Hs Hk) as (Hk' & Hc' & _).
  split_and!; [by unfold handle; rewrite Hk'|done|].
  intros c Hv. destruct (handle_mounted k s c Hs) as (inst & Hi & Hd).
  { apply handle_Some. eauto. }
  exists inst. split_and!; [done|done|].
  unfold destroy. rewrite Hk. simpl.
  rewrite (mouseLeave_visible k s v c) by done. simpl.
  by rewrite list_lookup_alter_eq, Hi.
Qed.

Lemma detach_tears_down_the_mounted_instance_witness :
  closures (run initial [Attach 7 label_A; Fire 7 mouseover]) !! 0
    = Some (mkVars 7 (Some 0) (Some "A"%string) None None) ∧
  calls_by 0 (run initial [Attach 7 label_A; Fire 7 mouseover; Detach 0])
    = calls_by 0 (run initial [Attach 7 label_A; Fire 7 mouseover]) ++ [call_destroy 0] ∧
  destroyed <$> instances (run initial [Attach 7 label_A; Fire 7 mouseover; Detach 0])
    = [true].
Proof.
  destruct (detach_tears_down_the_mounted_instance
              [Attach 7 label_A; Fire 7 mouseover] 0
              (mkVars 7 (Some 0) (Some "A"%string) None None) eq_refl)
    as (_ & Hc & _).
  split_and!; [reflexivity|exact Hc|reflexivity].
Defined.

(** ** The formatting map of the notebook *)

Lemma replace_from_same {A} `{EqDecision A} (old : list A) skip s :
  old ≠ [] → replace_from old old skip s = drop skip s.
Proof.
  intros Hold. revert skip. induction s as [|c s IH]; intros skip.
  - by destruct skip.
  - destruct skip as [|n]; simpl; [|apply IH].
    case_decide as Hp; [|by rewrite IH].
    rewrite IH. destruct Hp as [k Hk]. destruct old as [|a old]; [done|].
    simpl in *. simplify_eq. rewrite Nat.sub_0_r.
    by rewrite drop_app_length.
Qed.

Lemma str_replace_same {A} `{EqDecision A} (old s : list A) :
  old ≠ [] → str_replace old old s = s.
Proof.
  intros Hold. unfold str_replace. destruct old as [|a old]; [done|].
  by rewrite replace_from_same.
Qed.

Lemma format_blocks_unflagged ruff bs : ∀ t e r,
  format_blocks ruff bs t e = inr r → has_edit r = false →
  e = false ∧ answer r = t.
Proof.
  induction bs as [|[g cb] bs IH]; intros t e r Hr Hf; simpl in Hr.
  - by simplify_eq.
  - destruct cb as [|a cb]; [by eapply IH|].
    destruct (ruff (a :: cb)) as [out| |]; [|by eapply IH|done].
    by destruct (IH _ _ _ Hr Hf).
Qed.

Lemma format_blocks_flag ruff bs : ∀ t e r,
  format_blocks ruff bs t e = inr r →
  (has_edit r = true ↔ e = true ∨ Exists (formats ruff) bs).
Proof.
  induction bs as [|[g cb] bs IH]; intros t e r Hr; simpl in Hr.
  - simplify_eq. simpl. rewrite Exists_nil. tauto.
  - rewrite Exists_cons. unfold formats at 1. simpl.
    destruct cb as [|a cb].
    + rewrite (IH _ _ _ Hr). split; [tauto|]. intros [?|[[? _]|?]]; tauto.
    + destruct (ruff (a :: cb)) as [out| |] eqn:Hruff; [| |done].
      * rewrite (IH _ _ _ Hr). split; [|tauto]. intros _. right. left. eauto.
      * rewrite (IH _ _ _ Hr). split; [tauto|].
        intros [?|[[_ [out Hout]]|?]]; [tauto|done|tauto].
Qed.

Lemma format_blocks_identity ruff bs : ∀ t e,
  (∀ b, b ∈ bs → b.2 ≠ [] → ruff b.2 = returned b.2) →
  format_blocks ruff bs t e =
    inr (mkFormatResult t (e || bool_decide (Exists (λ b, b.2 ≠ []) bs))).
Proof.
  induction bs as [|[g cb] bs IH]; intros t e Hid; simpl.
  - by destruct e.
  - assert (∀ b, b ∈ bs → b.2 ≠ [] → ruff b.2 = returned b.2) as Hid'
      by (intros b Hb; apply Hid; by right).
    destruct cb as [|a cb].
    + rewrite IH by done. do 2 f_equal. f_equal. apply bool_decide_ext.
      rewrite Exists_cons. simpl. tauto.
    + assert (ruff (a :: cb) = returned (a :: cb)) as ->
        by (apply (Hid (g, a :: cb)); [by left|done]).
      rewrite str_replace_same by done. rewrite IH by done.
      rewrite (bool_decide_true (Exists _ (_ :: _))) by (left; done).
      by rewrite orb_true_r.
Qed.

(** X12: if [format_code] returns [has_edit] as [False], the answer it
    returns is the answer it was given, character for character. *)
Theorem unflagged_answer_is_unchanged findall ruff item r :
  format_code findall ruff item = inr (Some r) → has_edit r = false →
  item !! "answer"%string = Some (Some (answer r)).
Proof.
  unfold format_code. intros Hr Hf.
  destruct (item !! "answer"%string) as [[[|a text]|]|]; try done.
  destruct (format_blocks ruff (findall (a :: text)) (a :: text) false) as [|r'] eqn:Hb;
    [done|].
  simplify_eq. by destruct (format_blocks_unflagged _ _ _ _ _ Hb Hf) as [_ ->].
Qed.

Lemma unflagged_answer_is_unchanged_witness :
  format_code (λ _, [(String.list_ascii_of_string "py", String.list_ascii_of_string "x=1")])
    (λ _, CalledProcessError)
    {[ "answer"%string := Some (String.list_ascii_of_string "see x=1") ]}
  = inr (Some (mkFormatResult (String.list_ascii_of_string "see x=1") false)) ∧
  ({[ "answer"%string := Some (String.list_ascii_of_string "see x=1") ]}
     : gmap string (option str)) !! "answer"%string
  = Some (Some (String.list_ascii_of_string "see x=1")).
Proof.
  assert (format_code
            (λ _, [(String.list_ascii_of_string "py",
                    String.list_ascii_of_string "x=1")])
            (λ _, CalledProcessError)
            {[ "answer"%string := Some (String.list_ascii_of_string "see x=1") ]}
          = inr (Some (mkFormatResult (String.list_ascii_of_string "see x=1") false)))
    as Hrun by (vm_compute; reflexivity).
  split; [exact Hrun|].
  exact (unflagged_answer_is_unchanged _ _ _ _ Hrun eq_refl).
Defined.

(** X13: [has_edit] says that the formatter ran, not that it changed
    anything: when [format_code] returns a result, [has_edit] is [True]
    exactly when the pattern found a code block that is not empty and on
    which the formatter returned without [CalledProcessError]. *)
Theorem has_edit_iff_a_block_was_formatted findall ruff item r :
  format_code findall ruff item = inr (Some r) →
  ∃ text, item !! "answer"%string = Some (Some text) ∧
    (has_edit r = true ↔ Exists (formats ruff) (findall text)).
Proof.
  unfold format_code. intros Hr.
  destruct (item !! "answer"%string) as [[[|a text]|]|]; try done.
  destruct (format_blocks ruff (findall (a :: text)) (a :: text) false) as [|r'] eqn:Hb;
    [done|].
  simplify_eq. exists (a :: text). split; [done|].
  rewrite (format_blocks_flag _ _ _ _ _ Hb). split; [|tauto]. by intros [?|?].
Qed.

Lemma has_edit_iff_a_block_was_formatted_witness :
  format_code (λ _, [(String.list_ascii_of_string "py", String.list_ascii_of_string "x=1")])
    (λ b, returned (b ++ b))
    {[ "answer"%string := Some (String.list_ascii_of_string "see x=1") ]}
  = inr (Some (mkFormatResult (String.list_ascii_of_string "see x=1x=1") true)) ∧
  Exists (formats (λ b, returned (b ++ b)))
    [(String.list_ascii_of_string "py", String.list_ascii_of_string "x=1")].
Proof.
  assert (format_code
            (λ _, [(String.list_ascii_of_string "py",
                    String.list_ascii_of_string "x=1")])
            (λ b, returned (b ++ b))
            {[ "answer"%string := Some (String.list_ascii_of_string "see x=1") ]}
          = inr (Some (mkFormatResult (String.list_ascii_of_string "see x=1x=1") true)))
    as Hrun by (vm_compute; reflexivity).
  split; [exact Hrun|].
  destruct (has_edit_iff_a_block_was_formatted _ _ _ _ Hrun) as (text & Ht & Hiff).
  vm_compute in Ht. injection Ht as <-. by apply Hiff.
Defined.

(** X14: a formatter that returns every code block as it got it leaves
    the answer unchanged, and still [has_edit] comes back [True] as soon
    as the pattern found one code block that is not empty. *)
Theorem has_edit_although_nothing_changed findall ruff item text :
  item !! "answer"%string = Some (Some text) → text ≠ [] →
  (∀ b, b ∈ findall text → b.2 ≠ [] → ruff b.2 = returned b.2) →
  format_code findall ruff item =
    inr (Some (mkFormatResult text
                 (bool_decide (Exists (λ b, b.2 ≠ []) (findall text))))).
Proof.
  intros Hi Ht Hid. unfold format_code. rewrite Hi.
  destruct text as [|a text]; [done|].
  by rewrite format_blocks_identity.
Qed.

Lemma has_edit_although_nothing_changed_witness :
  String.list_ascii_of_string "see x=1" ≠ [] ∧
  format_code (λ _, [(String.list_ascii_of_string "py", String.list_ascii_of_string "x=1")])
    returned
    {[ "answer"%string := Some (String.list_ascii_of_string "see x=1") ]}
  = inr (Some (mkFormatResult (String.list_ascii_of_string "see x=1") true)).
Proof.
  split; [done|].
  apply (has_edit_although_nothing_changed
           (λ _, [(String.list_ascii_of_string "py", String.list_ascii_of_string "x=1")])
           returned
           {[ "answer"%string := Some (String.list_ascii_of_string "see x=1") ]}
           (String.list_ascii_of_string "see x=1")); [reflexivity|done|].
  intros b _ _. reflexivity.
Defined.

(** ** A leave event with nothing mounted *)

(** X15: a leave event while the handle is unset does nothing at all:
    [mouseLeave] returns the state it was given, without a [$destroy] call,
    and the whole dispatch leaves the variables and the calls of the
    controller as they were. *)
Theorem leave_while_hidden_is_noop tr k v :
  let s := run initial tr in
  closures s !! k = Some v → tooltipComponent v = None →
  mouseLeave k s = s ∧
  closures (step s (Fire (element v) mouseleave)) !! k = Some v ∧
  calls_by k (step s (Fire (element v) mouseleave)) = calls_by k s.
Proof.
  intros s Hk Hv. assert (consistent s) as Hs by apply consistent_reachable.
  split; [by eapply mouseLeave_hidden|].
  apply dispatchEvent_idle; auto.
Qed.

Lemma leave_while_hidden_is_noop_witness :
  closures (run initial [Attach 7 label_A]) !! 0
    = Some (mkVars 7 None (Some "A"%string) None None) ∧
  mouseLeave 0 (run initial [Attach 7 label_A]) = run initial [Attach 7 label_A] ∧
  calls_by 0 (run initial [Attach 7 label_A; Fire 7 mouseleave]) = [].
Proof.
  destruct (leave_while_hidden_is_noop [Attach 7 label_A] 0
              (mkVars 7 None (Some "A"%string) None None) eq_refl eq_refl)
    as (H1 & _ & H3).
  split_and!; [reflexivity|exact H1|exact H3].
Defined.
